(** * niconico-archive: the resumable crawl controller of [main.py]

    A shallow embedding of [NicoArchiver] (range merging, sharded paths,
    the retrying fetch and the walking loop of [run]) and the properties
    its specification states about them.

    Python integers are unbounded, hence [Z].  A range [[low, high]] of
    [processed_ranges] is a two-element list, hence a pair.  The progress
    record is the dict loaded from [progress.json], hence a [gmap] keyed
    by the prefix. *)

From Stdlib Require Import ZArith Lia Permutation Sorted Ascii String DecimalString DecimalPos DecimalZ.
From stdpp Require Import base list gmap strings.

Local Open Scope Z_scope.

(** ** Constants of the module *)

Definition EXECUTION_LIMIT_MINUTES : Z := 55.
Definition LATEST_VIDEO_API_URL : string :=
  "https://snapshot.search.nicovideo.jp/api/v2/snapshot/video/contents/search".
Definition GETTHUMBINFO_API_URL : string :=
  "https://ext.nicovideo.jp/api/getthumbinfo/".
Definition VIDEO_PREFIX : string := "sm".
Definition OLDEST_VIDEO_ID : Z := 9.
Definition REQUEST_WAIT_SECONDS : Z := 0.
Definition RETRY_COUNT : nat := 5.
Definition RETRY_WAIT_SECONDS : Z := 10.

(** ** Ranges and [_merge_ranges] *)

Module Ranges.

(** One entry [[low, high]] of [processed_ranges]. *)
Definition IDRange : Type := (Z * Z)%type.

(** [sorted(r)] on a two-element list. *)
Definition sorted_pair (r : IDRange) : IDRange :=
  (Z.min r.1 r.2, Z.max r.1 r.2).

(** [sorted(..., key=lambda x: x[0])]: Python's sort is stable, so the
    result is the insertion sort that keeps equal keys in input order. *)
Fixpoint insert_by_low (r : IDRange) (l : list IDRange) : list IDRange :=
  match l with
  | [] => [r]
  | y :: l' => if r.1 <=? y.1 then r :: y :: l' else y :: insert_by_low r l'
  end.

Definition sorted_by_low (l : list IDRange) : list IDRange :=
  foldr insert_by_low [] l.

(** [sorted(..., key=lambda x: x[0], reverse=True)], stable as well. *)
Fixpoint insert_by_low_desc (r : IDRange) (l : list IDRange) : list IDRange :=
  match l with
  | [] => [r]
  | y :: l' => if y.1 <=? r.1 then r :: y :: l' else y :: insert_by_low_desc r l'
  end.

Definition sorted_by_low_desc (l : list IDRange) : list IDRange :=
  foldr insert_by_low_desc [] l.

(** The body of the [for] loop of [_merge_ranges]: [merged[-1]] is read and
    either overwritten or followed by a new entry. *)
Definition merge_step (merged : list IDRange) (cur : IDRange) : list IDRange :=
  let '(current_start, current_end) := cur in
  let '(last_start, last_end) := List.last merged (0, 0) in
  if current_start <=? last_end + 1
  then removelast merged ++ [(last_start, Z.max last_end current_end)]
  else merged ++ [(current_start, current_end)].

Definition _merge_ranges (ranges : list IDRange) : list IDRange :=
  match ranges with
  | [] => []
  | _ =>
      match sorted_by_low (map sorted_pair ranges) with
      | [] => []
      | first :: rest => fold_left merge_step rest [first]
      end
  end.

(** The same fold with the last entry of [merged] kept apart; used in the
    proofs only, see [fold_merge_step]. *)
Fixpoint merge_from (lst : IDRange) (rest : list IDRange) : list IDRange :=
  match rest with
  | [] => [lst]
  | cur :: rest' =>
      if cur.1 <=? lst.2 + 1
      then merge_from (lst.1, Z.max lst.2 cur.2) rest'
      else lst :: merge_from cur rest'
  end.

(** [n] lies in the closed interval [r]. *)
Definition inside (n : Z) (r : IDRange) : Prop := r.1 <= n <= r.2.

Definition insideb (n : Z) (r : IDRange) : bool := (r.1 <=? n) && (n <=? r.2).

(** IDs lying in some range of [l], the ranges taken as they are. *)
Definition spans (l : list IDRange) (n : Z) : Prop :=
  exists r, In r l /\ inside n r.

(** [n] is covered by some range of [l], each read as [sorted(r)]. *)
Definition covers (l : list IDRange) (n : Z) : Prop :=
  exists r, In r l /\ inside n (sorted_pair r).

(** Every range of [l] starts above [bound], is non-empty, and leaves a gap
    of at least one ID before the next one. *)
Fixpoint separated_from (bound : Z) (l : list IDRange) : Prop :=
  match l with
  | [] => True
  | r :: t => bound < r.1 /\ r.1 <= r.2 /\ separated_from (r.2 + 1) t
  end.

Definition canonical (l : list IDRange) : Prop :=
  match l with
  | [] => True
  | r :: t => r.1 <= r.2 /\ separated_from (r.2 + 1) t
  end.

(** Sortedness by lower bound, as [sorted] leaves the list. *)
Fixpoint low_sorted (l : list IDRange) : Prop :=
  match l with
  | [] => True
  | r :: t => Forall (fun y => r.1 <= y.1) t /\ low_sorted t
  end.

End Ranges.

Import Ranges.

(** ** Sharded paths: [_get_path_for_id] *)

Module Sharding.

(** [str(n)] / [f"{n}"] for an integer: decimal, ["-"] in front of a
    negative one. *)
Definition str (n : Z) : string := NilZero.string_of_int (Z.to_int n).

(** A [pathlib.Path] as the sequence of components joined by [/], each
    kept as the string given: pathlib would split one that holds a
    separator. *)
Definition Path : Type := list string.

(** [Path("./")] has no component. *)
Definition DATA_ROOT : Path := [].

Definition _get_path_for_id (prefix : string) (item_id : Z) (extension : string) : Path :=
  let item_id_m1 := item_id - 1 in
  let l1 := (item_id_m1 / 1000000) * 1000000 + 1 in
  let l2 := (item_id_m1 / 10000) * 10000 + 1 in
  let l3 := (item_id_m1 / 100) * 100 + 1 in
  let dir_path :=
    DATA_ROOT ++ [prefix;
                  str l1 +:+ "-" +:+ str (l1 + 999999);
                  str l2 +:+ "-" +:+ str (l2 + 9999);
                  str l3 +:+ "-" +:+ str (l3 + 99)] in
  dir_path ++ [str item_id +:+ "." +:+ extension].

(** The specification's wording of the same path (section 4.2), kept apart
    from the code's to compare the two. *)
Definition spec_bucket_start (width m : Z) : Z := (m / width) * width + 1.

Definition spec_bucket_name (width m : Z) : string :=
  str (spec_bucket_start width m) +:+ "-" +:+ str (spec_bucket_start width m + width - 1).

Definition spec_shardPath (namespace : string) (id : Z) (extension : string) : Path :=
  let m := id - 1 in
  [namespace; spec_bucket_name 1000000 m; spec_bucket_name 10000 m;
   spec_bucket_name 100 m; str id +:+ "." +:+ extension].

End Sharding.

Import Sharding.

(** ** The outside world *)

Module Effects.

(** What [session.get] gives: a response with its status code and body, or
    a [requests.RequestException]. *)
Inductive Response : Type :=
  | HttpResponse (status_code : Z) (body : string)
  | RequestException.

(** What [run] reads of a parsed thumbinfo document: whether the root's
    [status] is ["ok"], and the text of [thumbnail_url] if there is one. *)
Record ThumbInfo : Type := mkThumbInfo {
  status_ok : bool;
  thumbnail_url : option string
}.

(** The collaborators whose answers the program cannot choose: the clock,
    the network, and the two parsers ([json.loads] with the extraction of
    [contentId] in [get_latest_video_id]; [etree.fromstring] in [run]).
    Readings of the clock and requests are numbered in the order the
    program makes them; a reading is in whole seconds.  [parse_latest] is
    [None] for the errors [get_latest_video_id] catches, [parse_thumbinfo]
    is [None] for [XMLSyntaxError].  A parse of the search answer that
    raises anything else (the [ValueError] of [int] on a [contentId] that
    is not [sm] and digits) ends the program inside
    [get_latest_video_id]; such runs are not modelled. *)
Record Env : Type := mkEnv {
  time_time : nat -> Z;
  session_get : nat -> string -> Response;
  parse_latest : string -> option Z;
  parse_thumbinfo : string -> option ThumbInfo
}.

(** One namespace of the progress record. *)
Record Entry : Type := mkEntry {
  processed_ranges : list IDRange;
  last_known_id : option Z
}.

(** Everything the program did to the world so far (latest first in each
    list): the readings of [time.time()], the URLs requested, the
    [time.sleep] calls, the data files written, and the records written to
    [progress.json]. *)
Record World : Type := mkWorld {
  clock_reads : nat;
  gets : list string;
  sleeps : list Z;
  files : list (Path * string);
  saved : list (gmap string Entry)
}.

Definition tick (w : World) : World :=
  mkWorld (S (clock_reads w)) (gets w) (sleeps w) (files w) (saved w).

Definition requested (url : string) (w : World) : World :=
  mkWorld (clock_reads w) (url :: gets w) (sleeps w) (files w) (saved w).

Definition sleep (seconds : Z) (w : World) : World :=
  mkWorld (clock_reads w) (gets w) (seconds :: sleeps w) (files w) (saved w).

Definition write_file (p : Path) (content : string) (w : World) : World :=
  mkWorld (clock_reads w) (gets w) (sleeps w) ((p, content) :: files w) (saved w).

Definition write_progress (data : gmap string Entry) (w : World) : World :=
  mkWorld (clock_reads w) (gets w) (sleeps w) (files w) (data :: saved w).

Definition empty_world : World := mkWorld 0 [] [] [] [].

End Effects.

Import Effects.

(** ** The retrying fetch *)

Module Fetch.

(** The [for i in range(n)] loop of [_fetch_with_retry] with [n] rounds
    left; after the last round the function returns [None]. *)
Fixpoint fetch_rounds (env : Env) (n : nat) (url : string) (w : World)
  : option string * World :=
  match n with
  | O => (None, w)
  | S n' =>
      let response := session_get env (length (gets w)) url in
      let w1 := requested url w in
      match response with
      | HttpResponse status_code body =>
          if status_code =? 200 then (Some body, w1)
          else if status_code =? 404 then (None, w1)
          else fetch_rounds env n' url (sleep RETRY_WAIT_SECONDS w1)
      | RequestException =>
          fetch_rounds env n' url (sleep RETRY_WAIT_SECONDS w1)
      end
  end.

(** [response.text] and [response.content] are both the body here; the
    query parameters of the one call that has some are fixed and left out
    of the URL. *)
Definition _fetch_with_retry (env : Env) (url : string) (w : World)
  : option string * World :=
  fetch_rounds env RETRY_COUNT url w.

(** Truth value of a [str] or [bytes] object. *)
Definition truthy (s : string) : bool := negb (String.eqb s "").

(** Truth value of a [str | None]. *)
Definition present (o : option string) : bool :=
  match o with
  | Some s => truthy s
  | None => false
  end.

Definition get_latest_video_id (env : Env) (w : World) : option Z * World :=
  let '(response_text, w1) := _fetch_with_retry env LATEST_VIDEO_API_URL w in
  match response_text with
  | Some text => if truthy text then (parse_latest env text, w1) else (None, w1)
  | None => (None, w1)
  end.

(** An attempt the loop answers by sleeping and trying again. *)
Definition retried (r : Response) : Prop :=
  match r with
  | HttpResponse status_code _ => status_code <> 200 /\ status_code <> 404
  | RequestException => True
  end.

(** The specification's class of transient failures: a transport error, or
    a status that is neither 2xx nor 404. *)
Definition transient (r : Response) : Prop :=
  match r with
  | HttpResponse status_code _ =>
      ~ (200 <= status_code <= 299) /\ status_code <> 404
  | RequestException => True
  end.

(** The world after [k] rounds of the fetch that all ended in the sleep. *)
Definition after_retries (k : nat) (url : string) (w : World) : World :=
  mkWorld (clock_reads w) (replicate k url ++ gets w)
          (replicate k RETRY_WAIT_SECONDS ++ sleeps w) (files w) (saved w).

End Fetch.

Import Fetch.

(** ** The crawl controller: [NicoArchiver.run] *)

Module Crawl.

(** The fields of [self] that [run] reads; the session is the [Env]. *)
Record NicoArchiver : Type := mkArchiver {
  start_time : Z;
  progress_data : gmap string Entry
}.

(** [_load_progress]: the content of [progress.json] when the file exists,
    a fresh record otherwise. *)
Definition _load_progress (file : option (gmap string Entry)) : gmap string Entry :=
  match file with
  | None =>
      <["sm" := mkEntry [] None]>
        (<["nm" := mkEntry [] None]> (<["so" := mkEntry [] None]> ∅))
  | Some data => data
  end.

(** [__init__]: the start time is the first reading of the clock. *)
Definition init (env : Env) (file : option (gmap string Entry)) (w : World)
  : NicoArchiver * World :=
  (mkArchiver (time_time env (clock_reads w)) (_load_progress file), tick w).

(** [os.path.basename] and ['.' in basename]. *)
Fixpoint has_char (c : ascii) (s : string) : bool :=
  match s with
  | EmptyString => false
  | String d rest => if Ascii.eqb c d then true else has_char c rest
  end.

Fixpoint basename (p : string) : string :=
  match p with
  | EmptyString => EmptyString
  | String c rest =>
      if has_char "/"%char rest then basename rest
      else if Ascii.eqb c "/"%char then rest else p
  end.

(** Lines 221-236: the larger thumbnail first when the URL allows it, the
    plain one when that gave nothing. *)
Definition fetch_thumbnail (env : Env) (thumb_url : string) (w : World)
  : option string * World :=
  if has_char "."%char (basename thumb_url) then
    let '(thumb_img, w1) := _fetch_with_retry env (thumb_url +:+ ".L") w in
    if present thumb_img then (thumb_img, w1)
    else _fetch_with_retry env thumb_url w1
  else _fetch_with_retry env thumb_url w.

(** Lines 197-259: what the loop does for one ID once it is not skipped. *)
Definition process_id (env : Env) (current_id : Z) (w : World) : World :=
  let video_id_full := VIDEO_PREFIX +:+ str current_id in
  let thumbinfo_url := GETTHUMBINFO_API_URL +:+ video_id_full in
  let '(xml_text, w1) := _fetch_with_retry env thumbinfo_url w in
  match xml_text with
  | None => w1
  | Some text =>
      if truthy text then
        let w2 := write_file (_get_path_for_id VIDEO_PREFIX current_id "xml") text w1 in
        match parse_thumbinfo env text with
        | None => w2
        | Some root =>
            if status_ok root then
              match thumbnail_url root with
              | None => w2
              | Some thumb_url =>
                  if truthy thumb_url then
                    let '(thumb_img, w3) := fetch_thumbnail env thumb_url w2 in
                    match thumb_img with
                    | None => w3
                    | Some img =>
                        if truthy img
                        then write_file (_get_path_for_id VIDEO_PREFIX current_id "jpg") img w3
                        else w3
                    end
                  else w2
              end
            else w2
        end
      else w1
  end.

(** The local variables of the loop, and [visited]: the IDs that reached
    line 196, latest first (a ghost of the model). *)
Record Walk : Type := mkWalk {
  current_id : Z;
  end_id_this_run : Z;
  visited : list Z;
  world : World
}.

(** The [for] loop of lines 184-189: the first range, by decreasing lower
    bound, that holds the cursor. *)
Definition find_skip (processed : list IDRange) (c : Z) : option IDRange :=
  List.find (insideb c) (sorted_by_low_desc processed).

Inductive Step : Type :=
  | Break (s : Walk)
  | Continue (s : Walk).

(** One pass through the body of the [while] loop (lines 179-262). *)
Definition loop_body (env : Env) (start : Z) (processed : list IDRange) (s : Walk) : Step :=
  let now := time_time env (clock_reads (world s)) in
  let w := tick (world s) in
  if now - start >? EXECUTION_LIMIT_MINUTES * 60 then
    Break (mkWalk (current_id s) (end_id_this_run s) (visited s) w)
  else
    match find_skip processed (current_id s) with
    | Some r =>
        Continue (mkWalk (r.1 - 1) (end_id_this_run s) (visited s) w)
    | None =>
        if current_id s <? OLDEST_VIDEO_ID then
          Break (mkWalk (current_id s) (end_id_this_run s) (visited s) w)
        else
          let w' := process_id env (current_id s) w in
          Continue (mkWalk (current_id s - 1) (current_id s)
                           (current_id s :: visited s)
                           (sleep REQUEST_WAIT_SECONDS w'))
    end.

Definition step_state (st : Step) : Walk :=
  match st with Break s | Continue s => s end.

(** The [while] loop, at most [fuel] passes; [None] when they did not
    suffice. *)
Fixpoint while_loop (fuel : nat) (env : Env) (start : Z) (processed : list IDRange)
    (s : Walk) : option Walk :=
  match fuel with
  | O => None
  | S fuel' =>
      if current_id s >=? OLDEST_VIDEO_ID then
        match loop_body env start processed s with
        | Break s' => Some s'
        | Continue s' => while_loop fuel' env start processed s'
        end
      else Some s
  end.

(** Every pass that does not leave the loop lowers the cursor, so one more
    pass than there are IDs from the cursor down to the floor is enough
    (see [walk_total]). *)
Definition passes (c : Z) : nat := S (Z.to_nat (c - OLDEST_VIDEO_ID + 1)).

Definition walk (env : Env) (start : Z) (processed : list IDRange) (s : Walk)
  : option Walk :=
  while_loop (passes (current_id s)) env start processed s.

(** Line 166: a single merged range that reaches from the floor to the
    frontier. *)
Definition fully_covered (merged : list IDRange) (latest_id : Z) : bool :=
  match merged with
  | [r] => (r.1 <=? OLDEST_VIDEO_ID) && (r.2 >=? latest_id)
  | _ => false
  end.

(** Lines 164-168: the ranges the walk consults. *)
Definition prepared_ranges (stored : list IDRange) (latest_id : Z) : list IDRange :=
  let merged := _merge_ranges stored in
  if fully_covered merged latest_id then [] else merged.

(** Lines 162-170 on the record. *)
Definition prepare (data : gmap string Entry) (entry : Entry) (latest_id : Z)
  : gmap string Entry :=
  <[VIDEO_PREFIX := mkEntry (prepared_ranges (processed_ranges entry) latest_id)
                            (Some latest_id)]> data.

(** Lines 266-270 on the [VIDEO_PREFIX] entry. *)
Definition commit_ranges (processed : list IDRange) (end_id start_id : Z)
  : list IDRange :=
  if negb (end_id =? -1)
  then _merge_ranges (processed ++ [(end_id, start_id)])
  else processed.

Definition commit (data : gmap string Entry) (end_id start_id : Z)
  : gmap string Entry :=
  match data !! VIDEO_PREFIX with
  | Some entry =>
      <[VIDEO_PREFIX := mkEntry (commit_ranges (processed_ranges entry) end_id start_id)
                                (last_known_id entry)]> data
  | None => data
  end.

(** What holds of the loop variables after every pass of a walk that
    started at [start_id] with nothing visited: the cursor is below every
    visited ID, [end_id_this_run] is the latest and lowest of them, and
    each of them lies in the window and outside the processed ranges. *)
Definition walk_inv (start_id : Z) (processed : list IDRange) (s : Walk) : Prop :=
  current_id s <= start_id /\
  end_id_this_run s = hd (-1) (visited s) /\
  Forall (fun x => current_id s < x /\ hd (-1) (visited s) <= x /\
                   OLDEST_VIDEO_ID <= x <= start_id /\ ~ spans processed x)
         (visited s).

(** The part of the loop state that decides where the walk goes. *)
Definition control (s : Walk) : Z * Z * list Z * nat :=
  (current_id s, end_id_this_run s, visited s, clock_reads (world s)).

(** How [run] ended: by the early [return] of line 159, by the [KeyError]
    of line 162 when the record has no [VIDEO_PREFIX] entry, or at its last
    line. *)
Inductive Exit : Type :=
  | FrontierUnresolved
  | RaisedKeyError
  | Completed.

Record Report : Type := mkReport {
  exit : Exit;
  data : gmap string Entry;
  walked : list Z;
  lowest : Z;
  after : World
}.

(** [run], for the runs in which [get_latest_video_id] returns.  [None]
    only if the loop ran out of passes, which it never does
    ([run_total]). *)
Definition run (env : Env) (self : NicoArchiver) (w : World) : option Report :=
  let '(latest, w1) := get_latest_video_id env w in
  match latest with
  | None => Some (mkReport FrontierUnresolved (progress_data self) [] (-1) w1)
  | Some newest =>
      let latest_id := newest - 10000 in
      match progress_data self !! VIDEO_PREFIX with
      | None => Some (mkReport RaisedKeyError (progress_data self) [] (-1) w1)
      | Some entry =>
          let data1 := prepare (progress_data self) entry latest_id in
          let processed := prepared_ranges (processed_ranges entry) latest_id in
          let start_id_this_run := latest_id in
          match walk env (start_time self) processed (mkWalk latest_id (-1) [] w1) with
          | None => None
          | Some s =>
              let data2 := commit data1 (end_id_this_run s) start_id_this_run in
              Some (mkReport Completed data2 (visited s) (end_id_this_run s)
                             (write_progress data2 (world s)))
          end
      end
  end.

End Crawl.

Import Crawl.

(** ** Concrete runs *)

Module Scenarios.

(** A clock that stays at the start time, and one that is past the limit
    from reading [k] on. *)
Definition on_time : nat -> Z := fun _ => 0.
Definition late_from (k : nat) : nat -> Z :=
  fun n => if (n <? k)%nat then 0 else 4000.

(** A network whose first answer is the search result and which has no
    thumbinfo document for any ID. *)
Definition search_then_404 : nat -> string -> Response :=
  fun k _ => if (k =? 0)%nat then HttpResponse 200 "contentId" else HttpResponse 404 "".

(** The same search answer, followed by a thumbinfo document for every ID. *)
Definition search_then_200 : nat -> string -> Response :=
  fun k _ => if (k =? 0)%nat then HttpResponse 200 "contentId" else HttpResponse 200 "<xml/>".

Definition unreachable : nat -> string -> Response := fun _ _ => RequestException.

Definition overloaded : nat -> string -> Response := fun _ _ => HttpResponse 503 "".

Definition gone_at (k : nat) : nat -> string -> Response :=
  fun n _ => if (n <? k)%nat then HttpResponse 500 "" else HttpResponse 404 "".

Definition back_at (k : nat) : nat -> string -> Response :=
  fun n _ => if (n <? k)%nat then RequestException else HttpResponse 200 "body".

Definition env_of (clock : nat -> Z) (net : nat -> string -> Response) (newest : Z) : Env :=
  mkEnv clock net (fun _ => Some newest) (fun _ => None).

(** An archiver started at time [0] whose record holds [stored] and
    [frontier] under [VIDEO_PREFIX]. *)
Definition archiver (stored : list IDRange) (frontier : option Z) : NicoArchiver :=
  mkArchiver 0 (<[VIDEO_PREFIX := mkEntry stored frontier]> (_load_progress None)).

End Scenarios.

Import Scenarios.

(** ** Measures used by the further properties *)

Module Cost.

(** From [w] to [w'] the program made at most [n] requests, slept only
    [RETRY_WAIT_SECONDS] at a time and no more often than it requested. *)
Definition spent (n : nat) (w w' : World) : Prop :=
  exists k j : nat,
    (j <= k <= n)%nat /\
    length (gets w') = (k + length (gets w))%nat /\
    sleeps w' = replicate j RETRY_WAIT_SECONDS ++ sleeps w.

(** The files [w'] has that [w] had not, latest first. *)
Definition written (w w' : World) (new : list (Path * string)) : Prop :=
  files w' = new ++ files w.

(** The thumbinfo URL of an ID (lines 197 and 201). *)
Definition thumbinfo_url (current_id : Z) : string :=
  GETTHUMBINFO_API_URL +:+ VIDEO_PREFIX +:+ str current_id.

End Cost.

Import Cost.

(** * Properties *)

(** ** The merge *)

Section MergeFacts.

Implicit Types (r lst cur : IDRange) (l rest : list IDRange) (n : Z).

Lemma insideb_inside n r : insideb n r = true <-> inside n r.
Proof. unfold insideb, inside. rewrite andb_true_iff, !Z.leb_le. tauto. Qed.

Lemma sorted_pair_ordered r : (sorted_pair r).1 <= (sorted_pair r).2.
Proof. unfold sorted_pair; simpl; lia. Qed.

Lemma sorted_pair_id r : r.1 <= r.2 -> sorted_pair r = r.
Proof.
  destruct r as [a b]; unfold sorted_pair; simpl; intros H.
  f_equal; lia.
Qed.

Lemma covers_spans l n : covers l n <-> spans (map sorted_pair l) n.
Proof.
  unfold covers, spans; split.
  - intros (r & Hin & Hn). exists (sorted_pair r). split; [now apply in_map | done].
  - intros (q & Hin & Hn). apply in_map_iff in Hin as (r & <- & Hin). eauto.
Qed.

Lemma spans_cons r l n : spans (r :: l) n <-> inside n r \/ spans l n.
Proof.
  unfold spans; split.
  - intros (q & [-> | Hin] & Hn); eauto.
  - intros [Hn | (q & Hin & Hn)]; [exists r | exists q]; simpl; auto.
Qed.

Lemma spans_nil n : ~ spans [] n.
Proof. intros (r & [] & _). Qed.

Lemma spans_perm l l' n : l ≡ₚ l' -> spans l n -> spans l' n.
Proof.
  intros Hp (r & Hin & Hn). exists r; split; [|done].
  eapply Permutation_in; eauto.
Qed.

(** *** The two sorts *)

Lemma insert_by_low_perm r l : insert_by_low r l ≡ₚ r :: l.
Proof.
  induction l as [|y l IH]; simpl; [done|].
  destruct (r.1 <=? y.1); [done|].
  rewrite IH. apply perm_swap.
Qed.

Lemma sorted_by_low_perm l : sorted_by_low l ≡ₚ l.
Proof.
  induction l as [|r l IH]; simpl; [done|].
  rewrite insert_by_low_perm. now constructor.
Qed.

Lemma insert_by_low_sorted r l : low_sorted l -> low_sorted (insert_by_low r l).
Proof.
  induction l as [|y l IH]; simpl; intros Hs.
  - split; [constructor | done].
  - destruct Hs as [Hy Hs]. destruct (Z.leb_spec r.1 y.1) as [Hle | Hgt]; simpl.
    + split; [|split; done].
      constructor; [done|]. eapply Forall_impl; [exact Hy|]. simpl; intros; lia.
    + split; [|auto].
      eapply Permutation_Forall; [symmetry; apply insert_by_low_perm|].
      constructor; [lia | done].
Qed.

Lemma sorted_by_low_sorted l : low_sorted (sorted_by_low l).
Proof.
  induction l as [|r l IH]; simpl; [done|]. now apply insert_by_low_sorted.
Qed.

Lemma insert_by_low_desc_perm r l : insert_by_low_desc r l ≡ₚ r :: l.
Proof.
  induction l as [|y l IH]; simpl; [done|].
  destruct (y.1 <=? r.1); [done|].
  rewrite IH. apply perm_swap.
Qed.

Lemma sorted_by_low_desc_perm l : sorted_by_low_desc l ≡ₚ l.
Proof.
  induction l as [|r l IH]; simpl; [done|].
  rewrite insert_by_low_desc_perm. now constructor.
Qed.

(** *** The fold, with the last entry of [merged] kept apart *)

Lemma fold_merge_step rest : forall pre lst,
  fold_left merge_step rest (pre ++ [lst]) = pre ++ merge_from lst rest.
Proof.
  induction rest as [|cur rest IH]; intros pre lst; simpl; [done|].
  unfold merge_step at 2. destruct cur as [cs ce].
  rewrite last_last, removelast_last. destruct lst as [ls le]; simpl.
  destruct (cs <=? le + 1).
  - apply IH.
  - rewrite IH. now rewrite <- app_assoc.
Qed.

Lemma merge_ranges_unfold l :
  _merge_ranges l =
  match sorted_by_low (map sorted_pair l) with
  | [] => []
  | first :: rest => merge_from first rest
  end.
Proof.
  destruct l as [|r l]; [done|].
  unfold _merge_ranges.
  destruct (sorted_by_low (map sorted_pair (r :: l))) as [|first rest]; [done|].
  apply (fold_merge_step rest [] first).
Qed.

(** *** What the fold leaves *)

Lemma separated_from_weaken l : forall b b',
  b' <= b -> separated_from b l -> separated_from b' l.
Proof.
  destruct l as [|r t]; simpl; intros b b' Hb; [done|].
  intros (? & ? & ?). repeat split; [lia|done..].
Qed.

Lemma separated_from_above l : forall b r,
  separated_from b l -> In r l -> b < r.1 /\ r.1 <= r.2.
Proof.
  induction l as [|q t IH]; simpl; intros b r Hs; [intros []|].
  destruct Hs as (Hb & Hq & Ht). intros [].
  - subst; lia.
  - destruct (IH _ _ Ht H); lia.
Qed.

Lemma separated_from_spans l b n : separated_from b l -> spans l n -> b < n.
Proof.
  intros Hs (r & Hin & Hn). destruct (separated_from_above _ _ _ Hs Hin).
  unfold inside in Hn; lia.
Qed.

Lemma canonical_ordered l r : canonical l -> In r l -> r.1 <= r.2.
Proof.
  destruct l as [|q t]; simpl; [done|]. intros [Hq Ht] [<- | Hin]; [done|].
  now destruct (separated_from_above _ _ _ Ht Hin).
Qed.

Lemma separated_canonical b l : separated_from b l -> canonical l.
Proof. destruct l; simpl; [done|]. tauto. Qed.

Lemma merge_from_spec rest : forall lst,
  lst.1 <= lst.2 ->
  Forall (fun y => lst.1 <= y.1 /\ y.1 <= y.2) rest ->
  low_sorted rest ->
  (exists h t, merge_from lst rest = h :: t /\ h.1 = lst.1 /\ h.1 <= h.2 /\
               separated_from (h.2 + 1) t) /\
  (forall n, spans (merge_from lst rest) n <-> spans (lst :: rest) n).
Proof.
  induction rest as [|cur rest IH]; intros lst Hlst Hall Hsorted; simpl.
  - split; [|done]. exists lst, []; simpl; auto.
  - apply Forall_cons in Hall as [[Hlo Hcur] Hall]. destruct Hsorted as [Hge Hsorted].
    destruct (Z.leb_spec cur.1 (lst.2 + 1)) as [Hmerge | Hgap].
    + destruct (IH (lst.1, Z.max lst.2 cur.2)) as [Hshape Hspan]; simpl; [lia | done | done |].
      split; [exact Hshape|].
      intros n. rewrite Hspan, !spans_cons. unfold inside; simpl. intuition lia.
    + assert (Hall' : Forall (fun y => cur.1 <= y.1 /\ y.1 <= y.2) rest).
      { apply List.Forall_forall. intros y Hy.
        rewrite List.Forall_forall in Hge, Hall.
        specialize (Hge y Hy). specialize (Hall y Hy). simpl in *. lia. }
      destruct (IH cur Hcur Hall' Hsorted) as [(h & t & Heq & Hh & Hord & Hsep) Hspan].
      split.
      * exists lst, (h :: t). rewrite Heq. simpl. repeat split; try done; lia.
      * intros n. rewrite spans_cons, Hspan, !spans_cons. tauto.
Qed.

Lemma merge_ranges_spec l :
  canonical (_merge_ranges l) /\ (forall n, spans (_merge_ranges l) n <-> covers l n).
Proof.
  rewrite merge_ranges_unfold.
  pose proof (sorted_by_low_perm (map sorted_pair l)) as Hperm.
  pose proof (sorted_by_low_sorted (map sorted_pair l)) as Hsorted.
  assert (Hord : Forall (fun y : IDRange => y.1 <= y.2) (sorted_by_low (map sorted_pair l))).
  { eapply Permutation_Forall; [symmetry; exact Hperm|].
    apply List.Forall_forall. intros y Hy. apply in_map_iff in Hy as (r & <- & _).
    apply sorted_pair_ordered. }
  destruct (sorted_by_low (map sorted_pair l)) as [|first rest].
  - split; [done|]. intros n. rewrite covers_spans. split.
    + intros H; now apply spans_nil in H.
    + intros H. eapply spans_perm in H; [|symmetry; exact Hperm]. exact H.
  - apply Forall_cons in Hord as [Hfirst Hrest]. destruct Hsorted as [Hge Hsorted].
    destruct (merge_from_spec rest first) as [(h & t & Heq & Hh & Hho & Hsep) Hspan];
      [done | | done |].
    { apply List.Forall_forall. intros y Hy. rewrite List.Forall_forall in Hge, Hrest.
      split; [now apply Hge | now apply Hrest]. }
    split.
    + rewrite Heq. simpl. done.
    + intros n. rewrite Hspan, covers_spans. split; apply spans_perm; [done | now symmetry].
Qed.

(** *** A canonical list is determined by the IDs it spans *)

Lemma separated_unique l1 : forall l2 b,
  separated_from b l1 -> separated_from b l2 ->
  (forall n, spans l1 n <-> spans l2 n) -> l1 = l2.
Proof.
  induction l1 as [|r1 t1 IH]; intros [|r2 t2] b H1 H2 Hsame.
  - done.
  - destruct H2 as (_ & Ho & _). exfalso. apply (spans_nil r2.1).
    apply Hsame, spans_cons. left. unfold inside; lia.
  - destruct H1 as (_ & Ho & _). exfalso. apply (spans_nil r1.1).
    apply Hsame, spans_cons. left. unfold inside; lia.
  - destruct H1 as (Hb1 & Ho1 & Ht1), H2 as (Hb2 & Ho2 & Ht2).
    assert (Hlow : r1.1 = r2.1).
    { assert (Ha : spans (r2 :: t2) r1.1)
        by (apply Hsame, spans_cons; left; unfold inside; lia).
      assert (Hb : spans (r1 :: t1) r2.1)
        by (apply Hsame, spans_cons; left; unfold inside; lia).
      apply spans_cons in Ha as [Ha | Ha]; [|apply (separated_from_spans _ _ _ Ht2) in Ha];
      apply spans_cons in Hb as [Hb | Hb]; [| apply (separated_from_spans _ _ _ Ht1) in Hb | |
        apply (separated_from_spans _ _ _ Ht1) in Hb]; unfold inside in *; lia. }
    assert (Hhigh : r1.2 = r2.2).
    { destruct (Z.lt_trichotomy r1.2 r2.2) as [Hlt | [Heq | Hgt]]; [|done|].
      - assert (Ha : spans (r1 :: t1) (r1.2 + 1))
          by (apply Hsame, spans_cons; left; unfold inside; lia).
        apply spans_cons in Ha as [Ha | Ha];
          [|apply (separated_from_spans _ _ _ Ht1) in Ha]; unfold inside in *; lia.
      - assert (Ha : spans (r2 :: t2) (r2.2 + 1))
          by (apply Hsame, spans_cons; left; unfold inside; lia).
        apply spans_cons in Ha as [Ha | Ha];
          [|apply (separated_from_spans _ _ _ Ht2) in Ha]; unfold inside in *; lia. }
    assert (Heq : r1 = r2) by (destruct r1, r2; simpl in *; congruence).
    subst r2. f_equal. apply (IH t2 (r1.2 + 1)); [done | done |].
    intros n. split; intros Hn.
    + assert (Ha : spans (r1 :: t2) n) by (apply Hsame, spans_cons; now right).
      apply spans_cons in Ha as [Ha | Ha]; [|done].
      apply (separated_from_spans _ _ _ Ht1) in Hn. unfold inside in Ha; lia.
    + assert (Ha : spans (r1 :: t1) n) by (apply Hsame, spans_cons; now right).
      apply spans_cons in Ha as [Ha | Ha]; [|done].
      apply (separated_from_spans _ _ _ Ht2) in Hn. unfold inside in Ha; lia.
Qed.

Lemma canonical_separated l : canonical l -> exists b, separated_from b l.
Proof.
  destruct l as [|r t]; simpl; [by exists 0|].
  intros [Ho Ht]. exists (r.1 - 1). repeat split; [lia | done | done].
Qed.

Lemma canonical_unique l1 l2 :
  canonical l1 -> canonical l2 -> (forall n, spans l1 n <-> spans l2 n) -> l1 = l2.
Proof.
  intros H1 H2 Hsame.
  destruct (canonical_separated _ H1) as [b1 Hb1].
  destruct (canonical_separated _ H2) as [b2 Hb2].
  apply (separated_unique l1 l2 (Z.min b1 b2)); [| |done].
  - eapply separated_from_weaken; [|exact Hb1]. lia.
  - eapply separated_from_weaken; [|exact Hb2]. lia.
Qed.

Lemma canonical_covers l n : canonical l -> covers l n <-> spans l n.
Proof.
  intros Hc. unfold covers, spans. split; intros (r & Hin & Hn); exists r; split; try done.
  - now rewrite sorted_pair_id in Hn by (eapply canonical_ordered; eauto).
  - now rewrite sorted_pair_id by (eapply canonical_ordered; eauto).
Qed.

(** Two ranges of a canonical list are the same one or lie apart. *)
Lemma separated_apart l : forall b o o',
  separated_from b l -> In o l -> In o' l ->
  o = o' \/ o.2 + 1 < o'.1 \/ o'.2 + 1 < o.1.
Proof.
  induction l as [|q t IH]; simpl; intros b o o' Hs; [intros []|].
  destruct Hs as (Hb & Hq & Ht). intros [] [].
  - left; congruence.
  - subst. right; left. now destruct (separated_from_above _ _ _ Ht H0).
  - subst. right; right. now destruct (separated_from_above _ _ _ Ht H).
  - eapply IH; eauto.
Qed.

Lemma canonical_apart l o o' :
  canonical l -> In o l -> In o' l -> o = o' \/ o.2 + 1 < o'.1 \/ o'.2 + 1 < o.1.
Proof.
  intros Hc. destruct (canonical_separated _ Hc) as [b Hb]. eapply separated_apart; eauto.
Qed.

(** A run of spanned IDs lies in one range of a canonical list. *)
Lemma canonical_run l a b :
  canonical l -> a <= b -> (forall n, a <= n <= b -> spans l n) ->
  exists o, In o l /\ o.1 <= a /\ b <= o.2.
Proof.
  intros Hc Hab Hrun.
  destruct (Hrun a ltac:(lia)) as (o & Hin & Ha).
  exists o. repeat split; [done | apply Ha |].
  destruct (Z.le_gt_cases b o.2) as [|Hlt]; [done|]. exfalso.
  destruct (Hrun (o.2 + 1)) as (o' & Hin' & Hn); [unfold inside in Ha; lia|].
  destruct (canonical_apart l o o' Hc Hin Hin') as [-> | [H | H]];
    unfold inside in *; lia.
Qed.

Lemma separated_lookup l : forall b (i j : nat) r1 r2,
  separated_from b l -> l !! i = Some r1 -> l !! j = Some r2 -> (i < j)%nat ->
  r1.2 + 1 < r2.1.
Proof.
  induction l as [|q t IH]; intros b i j r1 r2 Hs Hi Hj Hij; [done|].
  destruct Hs as (Hb & Hq & Ht).
  destruct j as [|j]; [lia|]. simpl in Hj.
  destruct i as [|i]; simpl in Hi.
  - inversion Hi; subst q.
    apply list_elem_of_lookup_2, list_elem_of_In in Hj.
    now destruct (separated_from_above _ _ _ Ht Hj).
  - eapply IH; eauto. lia.
Qed.

End MergeFacts.

(** ** The fetch *)

Section FetchFacts.

Variable env : Env.

Lemma transient_retried r : transient r -> retried r.
Proof. destruct r as [code body|]; simpl; [|done]. lia. Qed.

Lemma after_retries_0 url w : after_retries 0 url w = w.
Proof. now destruct w. Qed.

Lemma fetch_rounds_retried k : forall n url w,
  (forall i, (i < k)%nat -> retried (session_get env (length (gets w) + i) url)) ->
  fetch_rounds env (k + n) url w = fetch_rounds env n url (after_retries k url w).
Proof.
  induction k as [|k IH]; intros n url w Hall.
  - now rewrite after_retries_0.
  - assert (Hstep : fetch_rounds env (S k + n) url w =
                    fetch_rounds env (k + n) url (sleep RETRY_WAIT_SECONDS (requested url w))).
    { pose proof (Hall 0%nat ltac:(lia)) as H0. rewrite Nat.add_0_r in H0. simpl.
      destruct (session_get env (length (gets w)) url) as [code body|]; [|done].
      destruct H0 as [H200 H404].
      destruct (Z.eqb_spec code 200); [done|]. now destruct (Z.eqb_spec code 404). }
    rewrite Hstep, IH.
    + f_equal. unfold after_retries; simpl. f_equal.
      * change (url :: gets w) with ([url] ++ gets w).
        rewrite app_assoc. f_equal. clear. induction k; simpl; congruence.
      * change (RETRY_WAIT_SECONDS :: sleeps w) with ([RETRY_WAIT_SECONDS] ++ sleeps w).
        rewrite app_assoc. f_equal. clear. induction k; simpl; congruence.
    + intros i Hi. simpl. specialize (Hall (S i) ltac:(lia)).
      now rewrite Nat.add_succ_r in Hall.
Qed.

(** The fetch reads no clock, writes no file and saves no progress. *)
Lemma fetch_rounds_frame n : forall url w,
  clock_reads (fetch_rounds env n url w).2 = clock_reads w /\
  files (fetch_rounds env n url w).2 = files w /\
  saved (fetch_rounds env n url w).2 = saved w.
Proof.
  induction n as [|n IH]; intros url w; simpl; [done|].
  destruct (session_get env (length (gets w)) url) as [code body|].
  - destruct (code =? 200); [done|]. destruct (code =? 404); [done|].
    exact (IH url (sleep RETRY_WAIT_SECONDS (requested url w))).
  - exact (IH url (sleep RETRY_WAIT_SECONDS (requested url w))).
Qed.

Lemma fetch_frame url w :
  clock_reads (_fetch_with_retry env url w).2 = clock_reads w /\
  files (_fetch_with_retry env url w).2 = files w /\
  saved (_fetch_with_retry env url w).2 = saved w.
Proof. apply fetch_rounds_frame. Qed.

Lemma fetch_rounds_bounded n : forall url w,
  exists k, (k <= n)%nat /\
    gets (fetch_rounds env n url w).2 = replicate k url ++ gets w /\
    exists j, (j <= k)%nat /\
      sleeps (fetch_rounds env n url w).2 = replicate j RETRY_WAIT_SECONDS ++ sleeps w.
Proof.
  induction n as [|n IH]; intros url w; simpl.
  - exists 0%nat. split; [lia|]. split; [done|]. exists 0%nat. split; [lia | done].
  - assert (Hretry : exists k, (k <= S n)%nat /\
        gets (fetch_rounds env n url (sleep RETRY_WAIT_SECONDS (requested url w))).2
          = replicate k url ++ gets w /\
        exists j, (j <= k)%nat /\
          sleeps (fetch_rounds env n url (sleep RETRY_WAIT_SECONDS (requested url w))).2
            = replicate j RETRY_WAIT_SECONDS ++ sleeps w).
    { destruct (IH url (sleep RETRY_WAIT_SECONDS (requested url w)))
        as (k & Hk & Hg & j & Hj & Hs).
      exists (S k). split; [lia|]. split.
      - rewrite Hg. simpl. change (url :: gets w) with ([url] ++ gets w).
        rewrite app_assoc. change (url :: replicate k url ++ gets w)
          with ((url :: replicate k url) ++ gets w). f_equal.
        clear. induction k; simpl; congruence.
      - exists (S j). split; [lia|]. rewrite Hs. simpl.
        change (RETRY_WAIT_SECONDS :: sleeps w) with ([RETRY_WAIT_SECONDS] ++ sleeps w).
        rewrite app_assoc.
        change (RETRY_WAIT_SECONDS :: replicate j RETRY_WAIT_SECONDS ++ sleeps w)
          with ((RETRY_WAIT_SECONDS :: replicate j RETRY_WAIT_SECONDS) ++ sleeps w).
        f_equal. clear. induction j; simpl; congruence. }
    assert (Hstop : exists k, (k <= S n)%nat /\
        gets (requested url w) = replicate k url ++ gets w /\
        exists j, (j <= k)%nat /\
          sleeps (requested url w) = replicate j RETRY_WAIT_SECONDS ++ sleeps w).
    { exists 1%nat. split; [lia|]. split; [done|]. exists 0%nat. split; [lia | done]. }
    destruct (session_get env (length (gets w)) url) as [code body|]; [|exact Hretry].
    destruct (code =? 200); [exact Hstop|]. destruct (code =? 404); [exact Hstop | exact Hretry].
Qed.

Lemma get_latest_frame w :
  clock_reads (get_latest_video_id env w).2 = clock_reads w /\
  files (get_latest_video_id env w).2 = files w /\
  saved (get_latest_video_id env w).2 = saved w.
Proof.
  unfold get_latest_video_id.
  pose proof (fetch_frame LATEST_VIDEO_API_URL w) as H.
  destruct (_fetch_with_retry env LATEST_VIDEO_API_URL w) as [[text|] w1]; simpl in *;
    [destruct (truthy text)|]; exact H.
Qed.

End FetchFacts.

(** ** The walking loop *)

Section WalkFacts.

Implicit Types (s : Walk) (processed : list IDRange) (r : IDRange).

Lemma find_skip_some processed c r :
  find_skip processed c = Some r -> In r processed /\ inside c r.
Proof.
  unfold find_skip. intros H. apply find_some in H as [Hin Hc]. split.
  - eapply Permutation_in; [apply sorted_by_low_desc_perm | exact Hin].
  - now apply insideb_inside.
Qed.

Lemma find_skip_none processed c :
  find_skip processed c = None -> ~ spans processed c.
Proof.
  unfold find_skip. intros H (r & Hin & Hc).
  assert (Hin' : In r (sorted_by_low_desc processed))
    by (eapply Permutation_in; [symmetry; apply sorted_by_low_desc_perm | exact Hin]).
  apply (find_none _ _ H) in Hin'. apply insideb_inside in Hc. congruence.
Qed.

Lemma find_skip_canonical processed c r :
  canonical processed -> In r processed -> inside c r ->
  find_skip processed c = Some r.
Proof.
  intros Hc Hin Hr. destruct (find_skip processed c) as [q|] eqn:E.
  - apply find_skip_some in E as [Hq Hcq].
    destruct (canonical_apart processed r q Hc Hin Hq) as [-> | [H | H]];
      [done | unfold inside in *; lia..].
  - exfalso. apply (find_skip_none _ _ E). now exists r.
Qed.

Lemma prepared_ranges_canonical stored latest_id :
  canonical (prepared_ranges stored latest_id).
Proof.
  unfold prepared_ranges. destruct (fully_covered _ _); [done|].
  apply merge_ranges_spec.
Qed.

(** *** What one ID costs the world *)

Lemma fetch_thumbnail_frame env url w :
  clock_reads (fetch_thumbnail env url w).2 = clock_reads w /\
  saved (fetch_thumbnail env url w).2 = saved w.
Proof.
  unfold fetch_thumbnail. destruct (has_char _ _).
  - pose proof (fetch_frame env (url +:+ ".L") w) as (H1 & _ & H2).
    destruct (_fetch_with_retry env (url +:+ ".L") w) as [img w1]; simpl in *.
    destruct (present img); simpl; [done|].
    pose proof (fetch_frame env url w1) as (H3 & _ & H4). split; congruence.
  - pose proof (fetch_frame env url w) as (H1 & _ & H2). done.
Qed.

Lemma process_id_frame env c w :
  clock_reads (process_id env c w) = clock_reads w /\
  saved (process_id env c w) = saved w.
Proof.
  unfold process_id.
  pose proof (fetch_frame env (GETTHUMBINFO_API_URL +:+ VIDEO_PREFIX +:+ str c) w)
    as (H1 & _ & H2).
  destruct (_fetch_with_retry env _ w) as [[text|] w1]; simpl in *; [|done].
  destruct (truthy text); [|done].
  destruct (parse_thumbinfo env text) as [root|]; [|done].
  destruct (status_ok root); [|done].
  destruct (thumbnail_url root) as [thumb_url|]; [|done].
  destruct (truthy thumb_url); [|done].
  pose proof (fetch_thumbnail_frame env thumb_url
                (write_file (_get_path_for_id VIDEO_PREFIX c "xml") text w1)) as (H3 & H4).
  destruct (fetch_thumbnail env thumb_url _) as [[img|] w3]; simpl in *;
    [destruct (truthy img)|]; simpl; split; congruence.
Qed.

(** *** One pass *)

Lemma loop_body_frame env start processed s :
  clock_reads (world (step_state (loop_body env start processed s)))
    = S (clock_reads (world s)) /\
  saved (world (step_state (loop_body env start processed s))) = saved (world s).
Proof.
  unfold loop_body. destruct (_ >? _); [done|].
  destruct (find_skip processed (current_id s)); [done|].
  destruct (current_id s <? OLDEST_VIDEO_ID); [done|]. simpl.
  apply (process_id_frame env (current_id s) (tick (world s))).
Qed.

Lemma loop_body_lowers env start processed s s' :
  loop_body env start processed s = Continue s' -> current_id s' < current_id s.
Proof.
  unfold loop_body. destruct (_ >? _); [done|].
  destruct (find_skip processed (current_id s)) as [r|] eqn:E.
  - intros [= <-]; simpl. apply find_skip_some in E as [_ Hc]. unfold inside in Hc. lia.
  - destruct (current_id s <? OLDEST_VIDEO_ID); [done|]. intros [= <-]; simpl. lia.
Qed.

Lemma loop_body_inv env start start_id processed s :
  walk_inv start_id processed s ->
  walk_inv start_id processed (step_state (loop_body env start processed s)).
Proof.
  intros (Hcur & Hend & Hall). unfold loop_body. destruct (_ >? _); [done|].
  destruct (find_skip processed (current_id s)) as [r|] eqn:E; simpl.
  - apply find_skip_some in E as [_ Hc]. unfold inside in Hc.
    split; [simpl; lia|]. split; [done|]. simpl.
    eapply Forall_impl; [exact Hall|]. simpl. intros x (? & ? & ? & ?).
    repeat split; try done; lia.
  - destruct (Z.ltb_spec (current_id s) OLDEST_VIDEO_ID) as [|Hfloor]; [done|]. simpl.
    apply find_skip_none in E. unfold OLDEST_VIDEO_ID in *.
    split; [simpl; lia|]. split; [done|]. simpl.
    constructor; [repeat split; try done; lia|].
    eapply Forall_impl; [exact Hall|]. simpl. intros x (? & ? & ? & ?).
    unfold OLDEST_VIDEO_ID. repeat split; try done; lia.
Qed.

(** *** The whole loop *)

Lemma while_loop_total env start processed fuel : forall s,
  (Z.to_nat (current_id s - OLDEST_VIDEO_ID + 1) < fuel)%nat ->
  exists s', while_loop fuel env start processed s = Some s'.
Proof.
  induction fuel as [|fuel IH]; intros s Hfuel; [lia|]. simpl.
  destruct (Z.geb_spec (current_id s) OLDEST_VIDEO_ID) as [Hge|]; [|eauto].
  destruct (loop_body env start processed s) as [s'|s'] eqn:E; [eauto|].
  apply loop_body_lowers in E. apply IH. lia.
Qed.

Lemma walk_total env start processed s :
  exists s', walk env start processed s = Some s'.
Proof. apply while_loop_total. unfold passes. lia. Qed.

Lemma while_loop_inv env start start_id processed fuel : forall s s',
  walk_inv start_id processed s ->
  while_loop fuel env start processed s = Some s' ->
  walk_inv start_id processed s' /\ saved (world s') = saved (world s).
Proof.
  induction fuel as [|fuel IH]; intros s s' Hinv; [done|]. simpl.
  destruct (current_id s >=? OLDEST_VIDEO_ID); [|intros [= <-]; done].
  pose proof (loop_body_inv env start start_id processed s Hinv) as Hstep.
  pose proof (loop_body_frame env start processed s) as [_ Hsaved].
  destruct (loop_body env start processed s) as [s1|s1]; simpl in *.
  - intros [= <-]. done.
  - intros H. destruct (IH _ _ Hstep H) as [? ?]. split; [done | congruence].
Qed.

Lemma walk_inv_start start_id processed w :
  walk_inv start_id processed (mkWalk start_id (-1) [] w).
Proof. repeat split; simpl; [lia | constructor]. Qed.

(** With something visited, [end_id_this_run] is the lowest visited ID and
    is not the [-1] the commit tests for; with nothing visited, it is. *)
Lemma walk_inv_lowest start_id processed s :
  walk_inv start_id processed s ->
  (visited s = [] -> end_id_this_run s = -1) /\
  (visited s <> [] ->
     end_id_this_run s <> -1 /\ In (end_id_this_run s) (visited s) /\
     forall x, In x (visited s) ->
       end_id_this_run s <= x <= start_id /\ OLDEST_VIDEO_ID <= x /\ ~ spans processed x).
Proof.
  intros (Hcur & Hend & Hall). split.
  - intros E. now rewrite Hend, E.
  - intros Hne. destruct (visited s) as [|c l] eqn:E; [done|]. simpl in Hend.
    rewrite List.Forall_forall in Hall.
    assert (Hc := Hall c ltac:(now left)). simpl in Hc. unfold OLDEST_VIDEO_ID in *.
    repeat split; try (rewrite Hend; simpl; auto; lia);
      specialize (Hall x H); simpl in Hall; try rewrite Hend; try tauto; lia.
Qed.

(** *** The walk does not look at what the fetches gave *)

Lemma loop_body_control env1 env2 start processed s1 s2 :
  (forall k, time_time env1 k = time_time env2 k) ->
  control s1 = control s2 ->
  match loop_body env1 start processed s1, loop_body env2 start processed s2 with
  | Break a, Break b | Continue a, Continue b => control a = control b
  | _, _ => False
  end.
Proof.
  intros Hclock Hc. unfold control in Hc. injection Hc as Hcur Hend Hvis Hreads.
  unfold loop_body. rewrite Hclock, Hreads, Hcur, Hend, Hvis.
  destruct (_ >? _); [unfold control; simpl; congruence|].
  destruct (find_skip processed (current_id s2)); [unfold control; simpl; congruence|].
  destruct (current_id s2 <? OLDEST_VIDEO_ID); [unfold control; simpl; congruence|].
  unfold control; simpl.
  destruct (process_id_frame env1 (current_id s2) (tick (world s1))) as [-> _].
  destruct (process_id_frame env2 (current_id s2) (tick (world s2))) as [-> _].
  simpl. congruence.
Qed.

Lemma while_loop_control env1 env2 start processed fuel : forall s1 s2,
  (forall k, time_time env1 k = time_time env2 k) ->
  control s1 = control s2 ->
  match while_loop fuel env1 start processed s1, while_loop fuel env2 start processed s2 with
  | Some a, Some b => control a = control b
  | None, None => True
  | _, _ => False
  end.
Proof.
  induction fuel as [|fuel IH]; intros s1 s2 Hclock Hc; [done|]. simpl.
  assert (Hcur : current_id s1 = current_id s2) by (unfold control in Hc; congruence).
  rewrite Hcur. destruct (current_id s2 >=? OLDEST_VIDEO_ID); [|done].
  pose proof (loop_body_control env1 env2 start processed s1 s2 Hclock Hc) as Hstep.
  destruct (loop_body env1 start processed s1), (loop_body env2 start processed s2);
    try done. now apply IH.
Qed.

End WalkFacts.

(** ** Claims about [_merge_ranges] *)

Lemma merge_ranges_gap_kept a b c :
  a <= b -> b + 2 <= c -> _merge_ranges [(a, b); (b + 2, c)] = [(a, b); (b + 2, c)].
Proof.
  intros Hab Hbc. unfold _merge_ranges, sorted_by_low, sorted_pair; simpl.
  rewrite !Z.min_l, !Z.max_r by lia.
  destruct (Z.leb_spec a (b + 2)); [|lia]. simpl.
  destruct (Z.leb_spec (b + 2) (b + 1)); [lia | done].
Qed.

Lemma merge_ranges_adjacent_joined a b c :
  a <= b -> b + 1 <= c -> _merge_ranges [(a, b); (b + 1, c)] = [(a, c)].
Proof.
  intros Hab Hbc. unfold _merge_ranges, sorted_by_low, sorted_pair; simpl.
  rewrite !Z.min_l, !Z.max_r by lia.
  destruct (Z.leb_spec a (b + 1)); [|lia]. simpl.
  destruct (Z.leb_spec (b + 1) (b + 1)); [|lia]. simpl. f_equal. f_equal. lia.
Qed.

(** C5: whatever the input, two ranges of the output of [_merge_ranges]
    neither overlap nor touch (the earlier one ends at least two IDs before
    the later one starts, and each is non-empty); two input ranges of which
    the next starts at or below the previous one's end plus one lie in one
    output range; two ranges with exactly one ID missing between them stay
    apart; and the two results the specification gives. *)
Theorem merge_ranges_separates (ranges : list IDRange) :
  (forall (i j : nat) (r1 r2 : IDRange),
      _merge_ranges ranges !! i = Some r1 -> _merge_ranges ranges !! j = Some r2 ->
      (i < j)%nat -> r1.1 <= r1.2 /\ r1.2 + 1 < r2.1 /\ r2.1 <= r2.2) /\
  (forall prev next : IDRange,
      In prev ranges -> In next ranges ->
      (sorted_pair prev).1 <= (sorted_pair next).1 ->
      (sorted_pair next).1 <= (sorted_pair prev).2 + 1 ->
      exists o, In o (_merge_ranges ranges) /\
                o.1 <= (sorted_pair prev).1 /\ (sorted_pair prev).2 <= o.2 /\
                o.1 <= (sorted_pair next).1 /\ (sorted_pair next).2 <= o.2) /\
  (forall a b c, a <= b -> b + 2 <= c ->
      _merge_ranges [(a, b); (b + 2, c)] = [(a, b); (b + 2, c)]) /\
  (forall a b c, a <= b -> b + 1 <= c -> _merge_ranges [(a, b); (b + 1, c)] = [(a, c)]) /\
  _merge_ranges [(10, 20); (21, 30)] = [(10, 30)] /\
  _merge_ranges [(10, 20); (22, 30)] = [(10, 20); (22, 30)].
Proof.
  destruct (merge_ranges_spec ranges) as [Hcanon Hspan].
  split; [|split; [|split; [|split; [|split]]]].
  - intros i j r1 r2 Hi Hj Hij.
    destruct (canonical_separated _ Hcanon) as [b Hb].
    pose proof (separated_lookup _ _ _ _ _ _ Hb Hi Hj Hij).
    apply list_elem_of_lookup_2, list_elem_of_In in Hi, Hj.
    pose proof (canonical_ordered _ _ Hcanon Hi).
    pose proof (canonical_ordered _ _ Hcanon Hj). lia.
  - intros prev next Hp Hn Hlow Hnear.
    pose proof (sorted_pair_ordered prev) as Hop.
    pose proof (sorted_pair_ordered next) as Hon.
    destruct (canonical_run (_merge_ranges ranges) (sorted_pair prev).1
                (Z.max (sorted_pair prev).2 (sorted_pair next).2) Hcanon)
      as (o & Hin & Hlo & Hhi); [lia | |].
    + intros n Hn'. apply Hspan.
      destruct (Z.le_gt_cases n (sorted_pair prev).2).
      * exists prev. split; [done|]. unfold inside; lia.
      * exists next. split; [done|]. unfold inside; lia.
    + exists o. repeat split; [done | lia..].
  - apply merge_ranges_gap_kept.
  - apply merge_ranges_adjacent_joined.
  - reflexivity.
  - reflexivity.
Qed.

Lemma merge_ranges_separates_witness :
  _merge_ranges [(40, 35); (1, 5); (3, 9); (10, 12); (36, 36)] = [(1, 12); (35, 40)] /\
  (1 <= 12 /\ 12 + 1 < 35 /\ 35 <= 40) /\
  (exists o, In o (_merge_ranges [(40, 35); (1, 5); (3, 9); (10, 12); (36, 36)]) /\
             o.1 <= 3 /\ 9 <= o.2 /\ o.1 <= 10 /\ 12 <= o.2) /\
  _merge_ranges [(1, 5); (5 + 2, 9)] = [(1, 5); (5 + 2, 9)].
Proof.
  destruct (merge_ranges_separates [(40, 35); (1, 5); (3, 9); (10, 12); (36, 36)])
    as (Hsep & Hjoin & Hgap & _).
  split; [reflexivity|]. split; [|split].
  - apply (Hsep 0%nat 1%nat (1, 12) (35, 40)); [reflexivity | reflexivity | lia].
  - apply (Hjoin (3, 9) (10, 12)); simpl; [tauto | tauto | lia | lia].
  - apply Hgap; lia.
Defined.

(** C6: [_merge_ranges] applied to its own output changes nothing, and
    two inputs that are permutations of each other give the same output. *)
Theorem merge_ranges_idempotent_order_independent :
  (forall x : list IDRange, _merge_ranges (_merge_ranges x) = _merge_ranges x) /\
  (forall x y : list IDRange, x ≡ₚ y -> _merge_ranges x = _merge_ranges y).
Proof.
  split.
  - intros x.
    destruct (merge_ranges_spec x) as [Hc Hs].
    destruct (merge_ranges_spec (_merge_ranges x)) as [Hc' Hs'].
    apply canonical_unique; [done | done |].
    intros n. rewrite Hs'. now apply canonical_covers.
  - intros x y Hperm.
    destruct (merge_ranges_spec x) as [Hcx Hsx].
    destruct (merge_ranges_spec y) as [Hcy Hsy].
    apply canonical_unique; [done | done |].
    intros n. rewrite Hsx, Hsy. unfold covers.
    split; intros (r & Hin & Hn); exists r; (split; [|done]).
    + eapply Permutation_in; [exact Hperm | done].
    + eapply Permutation_in; [symmetry; exact Hperm | done].
Qed.

Lemma merge_ranges_order_witness :
  [(1, 5); (1, 3); (7, 6)] ≡ₚ [(7, 6); (1, 3); (1, 5)] /\
  _merge_ranges [(1, 5); (1, 3); (7, 6)] = _merge_ranges [(7, 6); (1, 3); (1, 5)] /\
  _merge_ranges [(7, 6); (1, 3); (1, 5)] = [(1, 7)].
Proof.
  assert (Hp : [(1, 5); (1, 3); (7, 6)] ≡ₚ [(7, 6); (1, 3); (1, 5)]).
  { change ([(1, 5); (1, 3); (7, 6)] ≡ₚ rev [(1, 5); (1, 3); (7, 6)]).
    apply Permutation_rev. }
  split; [exact Hp|]. split.
  - exact (proj2 merge_ranges_idempotent_order_independent _ _ Hp).
  - reflexivity.
Defined.

(** ** Claims about [_get_path_for_id] *)

(** C9: the path is the namespace, three buckets and the file name, each
    bucket named by its first and last ID, where the first ID of a bucket
    of width 1,000,000 / 10,000 / 100 is [floor((id - 1) / width) * width + 1];
    the ID lies in each bucket and each bucket lies in the wider one; and
    the two paths the specification gives.  It holds for every integer ID. *)
Theorem get_path_for_id_buckets (prefix : string) (item_id : Z) (extension : string) :
  _get_path_for_id prefix item_id extension = spec_shardPath prefix item_id extension /\
  (spec_bucket_start 1000000 (item_id - 1) <= spec_bucket_start 10000 (item_id - 1) /\
   spec_bucket_start 10000 (item_id - 1) <= spec_bucket_start 100 (item_id - 1) /\
   spec_bucket_start 100 (item_id - 1) <= item_id /\
   item_id <= spec_bucket_start 100 (item_id - 1) + 100 - 1 /\
   spec_bucket_start 100 (item_id - 1) + 100 - 1
     <= spec_bucket_start 10000 (item_id - 1) + 10000 - 1 /\
   spec_bucket_start 10000 (item_id - 1) + 10000 - 1
     <= spec_bucket_start 1000000 (item_id - 1) + 1000000 - 1) /\
  _get_path_for_id "sm" 50567 "xml"
    = ["sm"; "1-1000000"; "50001-60000"; "50501-50600"; "50567.xml"] /\
  _get_path_for_id "sm" 100 "xml" !! 3%nat = Some "1-100".
Proof.
  split; [|split; [|split]].
  - unfold _get_path_for_id, spec_shardPath, spec_bucket_name, spec_bucket_start, DATA_ROOT.
    simpl app.
    replace ((item_id - 1) / 1000000 * 1000000 + 1 + 1000000 - 1)
      with ((item_id - 1) / 1000000 * 1000000 + 1 + 999999) by lia.
    replace ((item_id - 1) / 10000 * 10000 + 1 + 10000 - 1)
      with ((item_id - 1) / 10000 * 10000 + 1 + 9999) by lia.
    replace ((item_id - 1) / 100 * 100 + 1 + 100 - 1)
      with ((item_id - 1) / 100 * 100 + 1 + 99) by lia.
    reflexivity.
  - unfold spec_bucket_start. Z.div_mod_to_equations. lia.
  - reflexivity.
  - reflexivity.
Qed.

(** ** Claims about [_fetch_with_retry] *)

Lemma fetch_after_retries env url w (k m : nat) :
  (forall i, (i < k)%nat -> transient (session_get env (length (gets w) + i) url)) ->
  fetch_rounds env (k + m) url w = fetch_rounds env m url (after_retries k url w).
Proof.
  intros Hall. apply fetch_rounds_retried. intros i Hi. apply transient_retried. auto.
Qed.

Lemma after_retries_requests k url w :
  length (gets (after_retries k url w)) = (length (gets w) + k)%nat.
Proof. simpl. rewrite length_app, length_replicate. lia. Qed.

(** C7: the fetch makes at most [RETRY_COUNT] requests; a request that
    fails with a transport error or with a status that is neither 2xx nor
    404 is followed by a sleep of [RETRY_WAIT_SECONDS] and the next round;
    a 404 ends the fetch at once with [None], no sleep and no further
    request; and [RETRY_COUNT] failures in a row end it with [None] as
    well, as a value and not as an error.  The fetch reads no clock and
    writes nothing. *)
Theorem fetch_with_retry_contract (env : Env) (url : string) (w : World) :
  (forall (k : nat) (body : string),
      (k < RETRY_COUNT)%nat ->
      (forall i, (i < k)%nat -> transient (session_get env (length (gets w) + i) url)) ->
      session_get env (length (gets w) + k) url = HttpResponse 404 body ->
      _fetch_with_retry env url w = (None, requested url (after_retries k url w))) /\
  (forall (k : nat) (body : string),
      (k < RETRY_COUNT)%nat ->
      (forall i, (i < k)%nat -> transient (session_get env (length (gets w) + i) url)) ->
      session_get env (length (gets w) + k) url = HttpResponse 200 body ->
      _fetch_with_retry env url w = (Some body, requested url (after_retries k url w))) /\
  ((forall i, (i < RETRY_COUNT)%nat ->
      transient (session_get env (length (gets w) + i) url)) ->
   _fetch_with_retry env url w = (None, after_retries RETRY_COUNT url w)) /\
  (exists k j : nat,
      (j <= k <= RETRY_COUNT)%nat /\
      gets (_fetch_with_retry env url w).2 = replicate k url ++ gets w /\
      sleeps (_fetch_with_retry env url w).2 = replicate j RETRY_WAIT_SECONDS ++ sleeps w /\
      clock_reads (_fetch_with_retry env url w).2 = clock_reads w /\
      files (_fetch_with_retry env url w).2 = files w /\
      saved (_fetch_with_retry env url w).2 = saved w).
Proof.
  split; [|split; [|split]].
  - intros k body Hk Hall H404. unfold _fetch_with_retry.
    replace RETRY_COUNT with (k + S (RETRY_COUNT - k - 1))%nat by lia.
    rewrite fetch_after_retries by done. cbn [fetch_rounds].
    rewrite after_retries_requests, H404. reflexivity.
  - intros k body Hk Hall H200. unfold _fetch_with_retry.
    replace RETRY_COUNT with (k + S (RETRY_COUNT - k - 1))%nat by lia.
    rewrite fetch_after_retries by done. cbn [fetch_rounds].
    rewrite after_retries_requests, H200. reflexivity.
  - intros Hall. unfold _fetch_with_retry.
    replace RETRY_COUNT with (RETRY_COUNT + 0)%nat at 1 by lia.
    now rewrite fetch_after_retries.
  - destruct (fetch_rounds_bounded env RETRY_COUNT url w) as (k & Hk & Hg & j & Hj & Hs).
    destruct (fetch_frame env url w) as (Hc & Hf & Hp).
    exists k, j. unfold _fetch_with_retry in *. repeat split; try done; lia.
Qed.

Lemma fetch_with_retry_contract_witness :
  _fetch_with_retry (env_of on_time (gone_at 2) 0) "u" empty_world
    = (None, mkWorld 0 ["u"; "u"; "u"] [10; 10] [] []) /\
  _fetch_with_retry (env_of on_time (back_at 1) 0) "u" empty_world
    = (Some "body", mkWorld 0 ["u"; "u"] [10] [] []) /\
  _fetch_with_retry (env_of on_time overloaded 0) "u" empty_world
    = (None, mkWorld 0 ["u"; "u"; "u"; "u"; "u"] [10; 10; 10; 10; 10] [] []) /\
  _fetch_with_retry (env_of on_time unreachable 0) "u" empty_world
    = (None, mkWorld 0 ["u"; "u"; "u"; "u"; "u"] [10; 10; 10; 10; 10] [] []).
Proof.
  split; [|split; [|split]].
  - destruct (fetch_with_retry_contract (env_of on_time (gone_at 2) 0) "u" empty_world)
      as (Hgone & _).
    apply (Hgone 2%nat ""); [unfold RETRY_COUNT; lia | | reflexivity].
    intros i Hi. simpl. unfold gone_at.
    destruct (Nat.ltb_spec i 2); [simpl; lia | lia].
  - destruct (fetch_with_retry_contract (env_of on_time (back_at 1) 0) "u" empty_world)
      as (_ & Hback & _).
    apply (Hback 1%nat "body"); [unfold RETRY_COUNT; lia | | reflexivity].
    intros i Hi. simpl. unfold back_at. destruct (Nat.ltb_spec i 1); [done | lia].
  - destruct (fetch_with_retry_contract (env_of on_time overloaded 0) "u" empty_world)
      as (_ & _ & Hall & _).
    apply Hall. intros i _. simpl. lia.
  - destruct (fetch_with_retry_contract (env_of on_time unreachable 0) "u" empty_world)
      as (_ & _ & Hall & _).
    apply Hall. intros i _. exact I.
Defined.

(** ** Claims about [run] *)

Lemma commit_prepare data0 entry latest_id end_id :
  commit (prepare data0 entry latest_id) end_id latest_id =
  <[VIDEO_PREFIX := mkEntry (commit_ranges (prepared_ranges (processed_ranges entry) latest_id)
                                           end_id latest_id)
                            (Some latest_id)]> data0.
Proof.
  unfold commit, prepare. rewrite lookup_insert_eq. simpl. apply insert_insert_eq.
Qed.

(** What [run] comes to once the frontier is resolved and the record has
    its [VIDEO_PREFIX] entry. *)
Lemma run_completed env self w newest w1 entry :
  get_latest_video_id env w = (Some newest, w1) ->
  progress_data self !! VIDEO_PREFIX = Some entry ->
  exists s,
    walk env (start_time self) (prepared_ranges (processed_ranges entry) (newest - 10000))
         (mkWalk (newest - 10000) (-1) [] w1) = Some s /\
    walk_inv (newest - 10000) (prepared_ranges (processed_ranges entry) (newest - 10000)) s /\
    saved (world s) = saved w /\
    run env self w =
      Some (mkReport Completed
              (<[VIDEO_PREFIX :=
                   mkEntry (commit_ranges
                              (prepared_ranges (processed_ranges entry) (newest - 10000))
                              (end_id_this_run s) (newest - 10000))
                           (Some (newest - 10000))]> (progress_data self))
              (visited s) (end_id_this_run s)
              (write_progress
                 (<[VIDEO_PREFIX :=
                      mkEntry (commit_ranges
                                 (prepared_ranges (processed_ranges entry) (newest - 10000))
                                 (end_id_this_run s) (newest - 10000))
                              (Some (newest - 10000))]> (progress_data self))
                 (world s))).
Proof.
  intros Hlatest Hentry.
  destruct (walk_total env (start_time self)
              (prepared_ranges (processed_ranges entry) (newest - 10000))
              (mkWalk (newest - 10000) (-1) [] w1)) as [s Hs].
  exists s. split; [exact Hs|].
  destruct (while_loop_inv _ _ (newest - 10000) _ _ _ _
              (walk_inv_start (newest - 10000) _ w1) Hs) as [Hinv Hsaved].
  split; [exact Hinv|]. split.
  - simpl in Hsaved. rewrite Hsaved.
    pose proof (get_latest_frame env w) as (_ & _ & H). now rewrite Hlatest in H.
  - unfold run. rewrite Hlatest, Hentry, Hs. now rewrite commit_prepare.
Qed.

(** The loop of [run] never runs out of passes: whatever
    [get_latest_video_id] returns, the model of [run] gives its report. *)
Lemma run_total env self w : exists rep, run env self w = Some rep.
Proof.
  destruct (get_latest_video_id env w) as [[newest|] w1] eqn:Hlatest.
  - destruct (progress_data self !! VIDEO_PREFIX) as [entry|] eqn:Hentry.
    + destruct (run_completed env self w newest w1 entry Hlatest Hentry)
        as (s & _ & _ & _ & Hrun). eauto.
    + unfold run. rewrite Hlatest, Hentry. eauto.
  - unfold run. rewrite Hlatest. eauto.
Qed.

(** The test of line 166 on the merged list: it holds of the single range
    from the floor to the adjusted frontier, and then the walk is given no
    range at all. *)
Lemma merged_window_clears stored latest_id :
  _merge_ranges stored = [(OLDEST_VIDEO_ID, latest_id)] ->
  fully_covered (_merge_ranges stored) latest_id = true /\
  prepared_ranges stored latest_id = [] /\
  OLDEST_VIDEO_ID <= latest_id.
Proof.
  intros Hmerged.
  assert (Hcovered : fully_covered (_merge_ranges stored) latest_id = true).
  { rewrite Hmerged. simpl. destruct (Z.geb_spec latest_id latest_id); [done | lia]. }
  split; [exact Hcovered|]. split.
  - unfold prepared_ranges. now rewrite Hcovered.
  - destruct (merge_ranges_spec stored) as [Hcanon _]. rewrite Hmerged in Hcanon.
    simpl in Hcanon. tauto.
Qed.

(** C8: when the frontier cannot be resolved, [run] returns at once: no ID
    is visited, the record in memory is the one loaded, nothing is written
    to the progress file or to the data files, and the clock is not read. *)
Theorem unresolved_frontier_ends_run (env : Env) (self : NicoArchiver) (w : World) :
  (get_latest_video_id env w).1 = None ->
  exists rep,
    run env self w = Some rep /\
    exit rep = FrontierUnresolved /\
    walked rep = [] /\
    data rep = progress_data self /\
    saved (after rep) = saved w /\
    files (after rep) = files w /\
    clock_reads (after rep) = clock_reads w.
Proof.
  intros Hnone. pose proof (get_latest_frame env w) as (Hc & Hf & Hs).
  unfold run. destruct (get_latest_video_id env w) as [latest w1]. simpl in *. subst latest.
  eexists. split; [reflexivity|]. simpl. repeat split; assumption.
Qed.

Lemma unresolved_frontier_ends_run_witness :
  (get_latest_video_id (env_of on_time unreachable 10100) (tick empty_world)).1 = None /\
  exists rep,
    run (env_of on_time unreachable 10100) (archiver [(20, 30)] (Some 7)) (tick empty_world)
      = Some rep /\
    exit rep = FrontierUnresolved /\
    walked rep = [] /\
    data rep = progress_data (archiver [(20, 30)] (Some 7)) /\
    saved (after rep) = [] /\
    files (after rep) = [] /\
    clock_reads (after rep) = 1%nat.
Proof.
  split; [reflexivity|].
  apply (unresolved_frontier_ends_run (env_of on_time unreachable 10100)
           (archiver [(20, 30)] (Some 7)) (tick empty_world)).
  reflexivity.
Defined.

Lemma loop_body_visited env start processed s x :
  In x (visited (step_state (loop_body env start processed s))) ->
  In x (visited s) \/ ~ spans processed x.
Proof.
  unfold loop_body. destruct (_ >? _); [auto|].
  destruct (find_skip processed (current_id s)) as [r|] eqn:E; [auto|].
  destruct (current_id s <? OLDEST_VIDEO_ID); [auto|]. simpl.
  intros [<- | Hin]; [|auto]. right. now apply find_skip_none.
Qed.

Lemma while_loop_visited env start processed fuel : forall s s' x,
  while_loop fuel env start processed s = Some s' ->
  In x (visited s') -> In x (visited s) \/ ~ spans processed x.
Proof.
  induction fuel as [|fuel IH]; intros s s' x; [done|]. simpl.
  destruct (current_id s >=? OLDEST_VIDEO_ID); [|intros [= <-]; auto].
  pose proof (loop_body_visited env start processed s x) as Hstep.
  destruct (loop_body env start processed s) as [s1|s1]; simpl in Hstep.
  - intros [= <-]. exact Hstep.
  - intros Hloop Hin. destruct (IH _ _ _ Hloop Hin); auto.
Qed.

Lemma walk_budget_spent env start processed s s' :
  time_time env (clock_reads (world s)) - start > EXECUTION_LIMIT_MINUTES * 60 ->
  walk env start processed s = Some s' -> visited s' = visited s.
Proof.
  intros Hlate. unfold walk, passes. simpl.
  destruct (current_id s >=? OLDEST_VIDEO_ID); [|intros [= <-]; done].
  unfold loop_body.
  destruct (Z.gtb_spec (time_time env (clock_reads (world s)) - start)
                       (EXECUTION_LIMIT_MINUTES * 60)); [|lia].
  now intros [= <-].
Qed.

Lemma while_loop_reads_grow env start processed fuel : forall s s',
  while_loop fuel env start processed s = Some s' ->
  (clock_reads (world s) <= clock_reads (world s'))%nat.
Proof.
  induction fuel as [|fuel IH]; intros s s'; [done|]. simpl.
  destruct (current_id s >=? OLDEST_VIDEO_ID); [|intros [= <-]; lia].
  pose proof (loop_body_frame env start processed s) as [Hreads _].
  destruct (loop_body env start processed s) as [s1|s1]; simpl in Hreads.
  - intros [= <-]. lia.
  - intros Hloop. apply IH in Hloop. lia.
Qed.

(** What is left of a walk after a pass that went on: the loop from the
    state the pass gave. *)
Lemma walk_after_pass env start processed s s1 :
  OLDEST_VIDEO_ID <= current_id s ->
  loop_body env start processed s = Continue s1 ->
  walk env start processed s
    = while_loop (Z.to_nat (current_id s - OLDEST_VIDEO_ID + 1)) env start processed s1.
Proof.
  intros Hfloor Hpass. unfold walk, passes. cbn [while_loop].
  destruct (Z.geb_spec (current_id s) OLDEST_VIDEO_ID); [|lia]. now rewrite Hpass.
Qed.

(** C1 (as the code has it): every pass of the loop starts with the budget
    test.  When the test lets the pass go on and the cursor lies in a range
    [[lo, hi]] of the ranges the walk consults, the pass moves the cursor
    to [lo - 1], visits no ID, leaves [end_id_this_run] alone and does
    nothing to the world but the one reading of the clock; when the budget
    is spent the pass ends the loop with the cursor where it was.  Over a
    whole walk no ID of [[lo, hi]] is visited.  After the jump, if
    [lo - 1] is still at or above the floor, the walk reads the clock
    again before anything else, and ends there, with [lo - 1] not
    visited, if that reading is past the limit; if [lo - 1] is below the
    floor, the loop ends by its condition and the clock is not read
    again. *)
Theorem skip_jumps_below_range (env : Env) (start : Z) (stored : list IDRange)
    (latest_id : Z) (s : Walk) (lo hi : Z) :
  In (lo, hi) (prepared_ranges stored latest_id) ->
  lo <= current_id s <= hi ->
  (time_time env (clock_reads (world s)) - start <= EXECUTION_LIMIT_MINUTES * 60 ->
   loop_body env start (prepared_ranges stored latest_id) s
     = Continue (mkWalk (lo - 1) (end_id_this_run s) (visited s) (tick (world s)))) /\
  (time_time env (clock_reads (world s)) - start > EXECUTION_LIMIT_MINUTES * 60 ->
   loop_body env start (prepared_ranges stored latest_id) s
     = Break (mkWalk (current_id s) (end_id_this_run s) (visited s) (tick (world s)))) /\
  (exists s', walk env start (prepared_ranges stored latest_id) s = Some s' /\
     forall x, In x (visited s') -> In x (visited s) \/ ~ lo <= x <= hi) /\
  (time_time env (clock_reads (world s)) - start <= EXECUTION_LIMIT_MINUTES * 60 ->
   OLDEST_VIDEO_ID <= lo - 1 ->
   forall s', walk env start (prepared_ranges stored latest_id) s = Some s' ->
     (clock_reads (world s) + 2 <= clock_reads (world s'))%nat) /\
  (time_time env (clock_reads (world s)) - start <= EXECUTION_LIMIT_MINUTES * 60 ->
   OLDEST_VIDEO_ID <= lo - 1 ->
   time_time env (S (clock_reads (world s))) - start > EXECUTION_LIMIT_MINUTES * 60 ->
   walk env start (prepared_ranges stored latest_id) s
     = Some (mkWalk (lo - 1) (end_id_this_run s) (visited s) (tick (tick (world s))))) /\
  (time_time env (clock_reads (world s)) - start <= EXECUTION_LIMIT_MINUTES * 60 ->
   OLDEST_VIDEO_ID <= current_id s ->
   lo - 1 < OLDEST_VIDEO_ID ->
   walk env start (prepared_ranges stored latest_id) s
     = Some (mkWalk (lo - 1) (end_id_this_run s) (visited s) (tick (world s)))).
Proof.
  intros Hin Hc.
  assert (Hskip : time_time env (clock_reads (world s)) - start
                    <= EXECUTION_LIMIT_MINUTES * 60 ->
                  loop_body env start (prepared_ranges stored latest_id) s
                  = Continue (mkWalk (lo - 1) (end_id_this_run s) (visited s)
                                     (tick (world s)))).
  { intros Hbudget. unfold loop_body.
    destruct (Z.gtb_spec (time_time env (clock_reads (world s)) - start)
                         (EXECUTION_LIMIT_MINUTES * 60)); [lia|].
    now rewrite (find_skip_canonical _ _ (lo, hi) (prepared_ranges_canonical _ _) Hin). }
  split; [exact Hskip|]. split; [|split; [|split; [|split]]].
  - intros Hbudget. unfold loop_body.
    destruct (Z.gtb_spec (time_time env (clock_reads (world s)) - start)
                         (EXECUTION_LIMIT_MINUTES * 60)); [done | lia].
  - destruct (walk_total env start (prepared_ranges stored latest_id) s) as [s' Hs].
    exists s'. split; [exact Hs|]. intros x Hx.
    destruct (while_loop_visited _ _ _ _ _ _ _ Hs Hx) as [|Hout]; [auto|].
    right. intros Hx'. apply Hout. now exists (lo, hi).
  - intros Hbudget Hfloor s'.
    assert (Hcur : OLDEST_VIDEO_ID <= current_id s) by lia.
    rewrite (walk_after_pass _ _ _ _ _ Hcur (Hskip Hbudget)).
    destruct (Z.to_nat (current_id s - OLDEST_VIDEO_ID + 1)) as [|fuel]; [done|].
    cbn [while_loop current_id].
    destruct (Z.geb_spec (lo - 1) OLDEST_VIDEO_ID); [|lia].
    pose proof (loop_body_frame env start (prepared_ranges stored latest_id)
                  (mkWalk (lo - 1) (end_id_this_run s) (visited s) (tick (world s))))
      as [Hreads _].
    destruct (loop_body env start (prepared_ranges stored latest_id)
                (mkWalk (lo - 1) (end_id_this_run s) (visited s) (tick (world s))))
      as [s1|s1]; simpl in Hreads.
    + intros [= <-]. lia.
    + intros Hloop. apply while_loop_reads_grow in Hloop. lia.
  - intros Hbudget Hfloor Hlate.
    assert (Hcur : OLDEST_VIDEO_ID <= current_id s) by lia.
    rewrite (walk_after_pass _ _ _ _ _ Hcur (Hskip Hbudget)).
    destruct (Z.to_nat (current_id s - OLDEST_VIDEO_ID + 1)) as [|fuel] eqn:Hfuel; [lia|].
    cbn [while_loop current_id].
    destruct (Z.geb_spec (lo - 1) OLDEST_VIDEO_ID); [|lia].
    unfold loop_body. cbn [world tick clock_reads].
    destruct (Z.gtb_spec (time_time env (S (clock_reads (world s))) - start)
                         (EXECUTION_LIMIT_MINUTES * 60)); [done | lia].
  - intros Hbudget Hfloor Hbelow.
    rewrite (walk_after_pass _ _ _ _ _ Hfloor (Hskip Hbudget)).
    destruct (Z.to_nat (current_id s - OLDEST_VIDEO_ID + 1)) as [|fuel] eqn:Hfuel; [lia|].
    cbn [while_loop current_id].
    destruct (Z.geb_spec (lo - 1) OLDEST_VIDEO_ID); [lia | done].
Qed.

Lemma skip_jumps_below_range_witness :
  In (500, 600) (prepared_ranges [(500, 600)] 1000) /\
  500 <= current_id (mkWalk 550 (-1) [] empty_world) <= 600 /\
  loop_body (env_of on_time search_then_404 0) 0 (prepared_ranges [(500, 600)] 1000)
            (mkWalk 550 (-1) [] empty_world)
    = Continue (mkWalk (500 - 1) (-1) [] (tick empty_world)) /\
  walk (env_of (late_from 1) search_then_404 0) 0 (prepared_ranges [(500, 600)] 1000)
       (mkWalk 550 (-1) [] empty_world)
    = Some (mkWalk (500 - 1) (-1) [] (tick (tick empty_world))) /\
  In (9, 600) (prepared_ranges [(9, 600)] 1000) /\
  walk (env_of (late_from 1) search_then_404 0) 0 (prepared_ranges [(9, 600)] 1000)
       (mkWalk 550 (-1) [] empty_world)
    = Some (mkWalk (9 - 1) (-1) [] (tick empty_world)).
Proof.
  assert (Hin : In (500, 600) (prepared_ranges [(500, 600)] 1000)) by (now left).
  assert (Hin' : In (9, 600) (prepared_ranges [(9, 600)] 1000)) by (now left).
  assert (Hc : 500 <= current_id (mkWalk 550 (-1) [] empty_world) <= 600) by (simpl; lia).
  assert (Hc' : 9 <= current_id (mkWalk 550 (-1) [] empty_world) <= 600) by (simpl; lia).
  destruct (skip_jumps_below_range (env_of on_time search_then_404 0) 0 [(500, 600)] 1000
              (mkWalk 550 (-1) [] empty_world) 500 600 Hin Hc) as (Hskip & _).
  destruct (skip_jumps_below_range (env_of (late_from 1) search_then_404 0) 0 [(500, 600)]
              1000 (mkWalk 550 (-1) [] empty_world) 500 600 Hin Hc)
    as (_ & _ & _ & _ & Hagain & _).
  destruct (skip_jumps_below_range (env_of (late_from 1) search_then_404 0) 0 [(9, 600)]
              1000 (mkWalk 550 (-1) [] empty_world) 9 600 Hin' Hc')
    as (_ & _ & _ & _ & _ & Hfloor).
  split; [exact Hin|]. split; [exact Hc|]. split; [|split; [|split]].
  - apply Hskip. simpl. unfold on_time, EXECUTION_LIMIT_MINUTES. lia.
  - apply Hagain; simpl; unfold late_from, EXECUTION_LIMIT_MINUTES, OLDEST_VIDEO_ID;
      simpl; lia.
  - exact Hin'.
  - apply Hfloor; simpl; unfold late_from, EXECUTION_LIMIT_MINUTES, OLDEST_VIDEO_ID;
      simpl; lia.
Defined.

(** C1 as the specification words it fails: with the cursor at 550 inside
    [[500, 600]], the pass that skips has read the clock once (and when
    that reading is past the limit there is no jump); and after the jump
    to 499 the walk meets the budget test again, which here ends it before
    499 is visited. *)
Lemma skip_passes_budget_test :
  In (500, 600) (prepared_ranges [(500, 600)] 1000) /\
  loop_body (env_of on_time search_then_404 0) 0 (prepared_ranges [(500, 600)] 1000)
            (mkWalk 550 (-1) [] empty_world)
    = Continue (mkWalk 499 (-1) [] (mkWorld 1 [] [] [] [])) /\
  loop_body (env_of (late_from 0) search_then_404 0) 0 (prepared_ranges [(500, 600)] 1000)
            (mkWalk 550 (-1) [] empty_world)
    = Break (mkWalk 550 (-1) [] (mkWorld 1 [] [] [] [])) /\
  walk (env_of (late_from 1) search_then_404 0) 0 (prepared_ranges [(500, 600)] 1000)
       (mkWalk 550 (-1) [] empty_world)
    = Some (mkWalk 499 (-1) [] (mkWorld 2 [] [] [] [])) /\
  ~ (forall (env : Env) (start : Z) (processed : list IDRange) (s : Walk) (lo hi : Z),
       In (lo, hi) processed -> lo <= current_id s <= hi ->
       exists s', loop_body env start processed s = Continue s' /\
                  current_id s' = lo - 1 /\
                  clock_reads (world s') = clock_reads (world s)).
Proof.
  split; [now left|]. split; [reflexivity|]. split; [reflexivity|].
  split; [vm_compute; reflexivity|].
  intros Hclaim.
  destruct (Hclaim (env_of on_time search_then_404 0) 0 [(500, 600)]
              (mkWalk 550 (-1) [] empty_world) 500 600) as (s' & Hs & _ & Hreads);
    [now left | simpl; lia |].
  vm_compute in Hs. injection Hs as <-. discriminate Hreads.
Qed.

(** C2: once the frontier is resolved, [run] returns; if it visited at
    least one ID, the range it appends before merging is
    [[lowest, start]], where [start] is the adjusted frontier the walk
    began at and [lowest] is the lowest ID visited, and the merged list is
    what is saved.  What the fetches returned plays no part: against any
    network that resolves the same frontier, under the same clock, the run
    visits the same IDs and leaves the same record. *)
Theorem committed_range_is_lowest_to_start (env : Env) (self : NicoArchiver) (w : World)
    (newest : Z) (w1 : World) (entry : Entry) :
  get_latest_video_id env w = (Some newest, w1) ->
  progress_data self !! VIDEO_PREFIX = Some entry ->
  exists rep,
    run env self w = Some rep /\
    (walked rep <> [] ->
       data rep !! VIDEO_PREFIX
         = Some (mkEntry
                   (_merge_ranges
                      (prepared_ranges (processed_ranges entry) (newest - 10000)
                         ++ [(lowest rep, newest - 10000)]))
                   (Some (newest - 10000))) /\
       saved (after rep) = data rep :: saved w /\
       In (lowest rep) (walked rep) /\
       (forall x, In x (walked rep) -> lowest rep <= x <= newest - 10000)) /\
    (forall (env' : Env) (w1' : World),
       (forall k, time_time env' k = time_time env k) ->
       get_latest_video_id env' w = (Some newest, w1') ->
       exists rep', run env' self w = Some rep' /\
                    walked rep' = walked rep /\ lowest rep' = lowest rep /\
                    data rep' = data rep).
Proof.
  intros Hlatest Hentry.
  destruct (run_completed env self w newest w1 entry Hlatest Hentry)
    as (s & Hs & Hinv & Hsaved & Hrun).
  eexists. split; [exact Hrun|]. simpl. split.
  - intros Hne. destruct (walk_inv_lowest _ _ _ Hinv) as [_ Hlow].
    destruct (Hlow Hne) as (Hend & Hin & Hall).
    rewrite lookup_insert_eq. unfold commit_ranges.
    destruct (Z.eqb_spec (end_id_this_run s) (-1)) as [|_]; [done|]. simpl.
    repeat split; [congruence | done | apply Hall; done | apply Hall; done].
  - intros env' w1' Hclock Hlatest'.
    destruct (run_completed env' self w newest w1' entry Hlatest' Hentry)
      as (s' & Hs' & _ & _ & Hrun').
    eexists. split; [exact Hrun'|]. simpl.
    assert (Hcontrol : control s' = control s).
    { pose proof (while_loop_control env' env (start_time self)
                    (prepared_ranges (processed_ranges entry) (newest - 10000))
                    (passes (newest - 10000))
                    (mkWalk (newest - 10000) (-1) [] w1')
                    (mkWalk (newest - 10000) (-1) [] w1) Hclock) as H.
      unfold walk in Hs, Hs'. cbn [current_id] in Hs, Hs'. rewrite Hs, Hs' in H. apply H.
      unfold control; simpl. f_equal.
      pose proof (get_latest_frame env w) as (Ha & _).
      pose proof (get_latest_frame env' w) as (Hb & _).
      rewrite Hlatest in Ha. rewrite Hlatest' in Hb. simpl in *. congruence. }
    unfold control in Hcontrol. injection Hcontrol as Hcur Hend Hvis _.
    rewrite Hend, Hvis. done.
Qed.

Lemma committed_range_is_lowest_to_start_witness :
  (exists rep,
     run (env_of (late_from 3) search_then_404 10100) (archiver [(50, 98)] (Some 7))
         (tick empty_world) = Some rep /\
     walked rep = [99; 100] /\ lowest rep = 99 /\
     data rep !! VIDEO_PREFIX = Some (mkEntry [(50, 100)] (Some 100))) /\
  (exists rep,
     run (env_of (late_from 3) search_then_200 10100) (archiver [(50, 98)] (Some 7))
         (tick empty_world) = Some rep /\
     walked rep = [99; 100] /\ lowest rep = 99 /\
     data rep !! VIDEO_PREFIX = Some (mkEntry [(50, 100)] (Some 100))) /\
  exists rep,
    run (env_of (late_from 3) search_then_404 10100) (archiver [(50, 98)] (Some 7))
        (tick empty_world) = Some rep /\
    (walked rep <> [] ->
       data rep !! VIDEO_PREFIX
         = Some (mkEntry
                   (_merge_ranges
                      (prepared_ranges (processed_ranges (mkEntry [(50, 98)] (Some 7)))
                                       (10100 - 10000)
                         ++ [(lowest rep, 10100 - 10000)]))
                   (Some (10100 - 10000))) /\
       saved (after rep) = data rep :: saved (tick empty_world) /\
       In (lowest rep) (walked rep) /\
       (forall x, In x (walked rep) -> lowest rep <= x <= 10100 - 10000)) /\
    (forall (env' : Env) (w1' : World),
       (forall k, time_time env' k = time_time (env_of (late_from 3) search_then_404 10100) k) ->
       get_latest_video_id env' (tick empty_world) = (Some 10100, w1') ->
       exists rep', run env' (archiver [(50, 98)] (Some 7)) (tick empty_world) = Some rep' /\
                    walked rep' = walked rep /\ lowest rep' = lowest rep /\
                    data rep' = data rep).
Proof.
  split; [|split].
  - eexists. split; [vm_compute; reflexivity|]. repeat split; vm_compute; reflexivity.
  - eexists. split; [vm_compute; reflexivity|]. repeat split; vm_compute; reflexivity.
  - apply (committed_range_is_lowest_to_start
             (env_of (late_from 3) search_then_404 10100) (archiver [(50, 98)] (Some 7))
             (tick empty_world) 10100
             (requested LATEST_VIDEO_API_URL (tick empty_world))
             (mkEntry [(50, 98)] (Some 7))).
    + reflexivity.
    + vm_compute; reflexivity.
Defined.

(** C3 (as the code has it): once the frontier is resolved, [run] always
    ends by writing the record to the progress file, once, whether or not
    the frontier or the ranges changed.  If no ID was visited, no range is
    appended: the ranges written are those the walk consulted (the stored
    ones merged, or none after a reset), next to the new frontier. *)
Theorem nothing_walked_appends_nothing (env : Env) (self : NicoArchiver) (w : World)
    (newest : Z) (w1 : World) (entry : Entry) :
  get_latest_video_id env w = (Some newest, w1) ->
  progress_data self !! VIDEO_PREFIX = Some entry ->
  exists rep,
    run env self w = Some rep /\
    exit rep = Completed /\
    saved (after rep) = data rep :: saved w /\
    (walked rep = [] ->
       data rep = prepare (progress_data self) entry (newest - 10000) /\
       data rep !! VIDEO_PREFIX
         = Some (mkEntry (prepared_ranges (processed_ranges entry) (newest - 10000))
                         (Some (newest - 10000)))).
Proof.
  intros Hlatest Hentry.
  destruct (run_completed env self w newest w1 entry Hlatest Hentry)
    as (s & Hs & Hinv & Hsaved & Hrun).
  eexists. split; [exact Hrun|]. simpl. split; [done|]. split; [congruence|].
  intros Hnone. destruct (walk_inv_lowest _ _ _ Hinv) as [Hend _].
  rewrite (Hend Hnone). unfold commit_ranges, prepare. simpl.
  split; [done | apply lookup_insert_eq].
Qed.

Lemma nothing_walked_appends_nothing_witness :
  (exists rep,
     run (env_of on_time search_then_404 10100) (archiver [(9, 50); (1, 3); (51, 100)] (Some 7))
         (tick empty_world) = Some rep /\
     walked rep = [] /\
     data rep !! VIDEO_PREFIX = Some (mkEntry [(1, 3); (9, 100)] (Some 100))) /\
  exists rep,
    run (env_of on_time search_then_404 10100) (archiver [(9, 50); (1, 3); (51, 100)] (Some 7))
        (tick empty_world) = Some rep /\
    exit rep = Completed /\
    saved (after rep) = data rep :: saved (tick empty_world) /\
    (walked rep = [] ->
       data rep = prepare (progress_data (archiver [(9, 50); (1, 3); (51, 100)] (Some 7)))
                          (mkEntry [(9, 50); (1, 3); (51, 100)] (Some 7)) (10100 - 10000) /\
       data rep !! VIDEO_PREFIX
         = Some (mkEntry (prepared_ranges
                            (processed_ranges (mkEntry [(9, 50); (1, 3); (51, 100)] (Some 7)))
                            (10100 - 10000))
                         (Some (10100 - 10000)))).
Proof.
  split.
  - eexists. split; [vm_compute; reflexivity|]. split; vm_compute; reflexivity.
  - apply (nothing_walked_appends_nothing
             (env_of on_time search_then_404 10100)
             (archiver [(9, 50); (1, 3); (51, 100)] (Some 7))
             (tick empty_world) 10100
             (requested LATEST_VIDEO_API_URL (tick empty_world))
             (mkEntry [(9, 50); (1, 3); (51, 100)] (Some 7))).
    + reflexivity.
    + vm_compute; reflexivity.
Defined.

(** C3 as the specification words it fails: a run that resolves the
    frontier to the value already stored (100), finds the whole window
    covered and visits nothing, still writes the record, ranges included,
    to the progress file, although neither the frontier nor the ranges
    changed. *)
Lemma nothing_walked_still_saved :
  exists rep,
    run (env_of on_time search_then_404 10100) (archiver [(1, 3); (9, 100)] (Some 100))
        (tick empty_world) = Some rep /\
    exit rep = Completed /\
    walked rep = [] /\
    progress_data (archiver [(1, 3); (9, 100)] (Some 100)) !! VIDEO_PREFIX
      = Some (mkEntry [(1, 3); (9, 100)] (Some 100)) /\
    data rep = progress_data (archiver [(1, 3); (9, 100)] (Some 100)) /\
    saved (tick empty_world) = [] /\
    saved (after rep) = [data rep].
Proof.
  eexists. split; [vm_compute; reflexivity|].
  repeat split; vm_compute; reflexivity.
Qed.

(** C10: when the reset rule fires and the run then visits no ID, as it
    does when the budget is already spent at the first test, the record
    written at the end of the run has an empty range list under
    [VIDEO_PREFIX]: the stored ranges are gone and no range took their
    place. *)
Theorem reset_with_nothing_walked_saves_empty (env : Env) (self : NicoArchiver) (w : World)
    (newest : Z) (w1 : World) (entry : Entry) :
  get_latest_video_id env w = (Some newest, w1) ->
  progress_data self !! VIDEO_PREFIX = Some entry ->
  fully_covered (_merge_ranges (processed_ranges entry)) (newest - 10000) = true ->
  exists rep,
    run env self w = Some rep /\
    (time_time env (clock_reads w) - start_time self > EXECUTION_LIMIT_MINUTES * 60 ->
     walked rep = []) /\
    (walked rep = [] ->
       data rep !! VIDEO_PREFIX = Some (mkEntry [] (Some (newest - 10000))) /\
       saved (after rep) = data rep :: saved w).
Proof.
  intros Hlatest Hentry Hreset.
  destruct (run_completed env self w newest w1 entry Hlatest Hentry)
    as (s & Hs & Hinv & Hsaved & Hrun).
  eexists. split; [exact Hrun|]. simpl. split.
  - intros Hlate. apply (walk_budget_spent _ _ _ _ _) in Hs; [exact Hs|]. simpl.
    pose proof (get_latest_frame env w) as (Hc & _). rewrite Hlatest in Hc. simpl in Hc.
    now rewrite Hc.
  - intros Hnone. destruct (walk_inv_lowest _ _ _ Hinv) as [Hend _].
    rewrite (Hend Hnone), lookup_insert_eq. unfold commit_ranges, prepared_ranges.
    rewrite Hreset. simpl. split; [done | congruence].
Qed.

Lemma reset_with_nothing_walked_saves_empty_witness :
  (exists rep,
     run (env_of (late_from 1) search_then_404 10100) (archiver [(9, 60); (40, 100)] (Some 7))
         (tick empty_world) = Some rep /\
     walked rep = [] /\
     saved (after rep) = [data rep] /\
     data rep !! VIDEO_PREFIX = Some (mkEntry [] (Some 100))) /\
  exists rep,
    run (env_of (late_from 1) search_then_404 10100) (archiver [(9, 60); (40, 100)] (Some 7))
        (tick empty_world) = Some rep /\
    (time_time (env_of (late_from 1) search_then_404 10100) (clock_reads (tick empty_world))
       - start_time (archiver [(9, 60); (40, 100)] (Some 7)) > EXECUTION_LIMIT_MINUTES * 60 ->
     walked rep = []) /\
    (walked rep = [] ->
       data rep !! VIDEO_PREFIX = Some (mkEntry [] (Some (10100 - 10000))) /\
       saved (after rep) = data rep :: saved (tick empty_world)).
Proof.
  split.
  - eexists. split; [vm_compute; reflexivity|]. repeat split; vm_compute; reflexivity.
  - apply (reset_with_nothing_walked_saves_empty
             (env_of (late_from 1) search_then_404 10100)
             (archiver [(9, 60); (40, 100)] (Some 7))
             (tick empty_world) 10100
             (requested LATEST_VIDEO_API_URL (tick empty_world))
             (mkEntry [(9, 60); (40, 100)] (Some 7))).
    + reflexivity.
    + vm_compute; reflexivity.
    + reflexivity.
Defined.

(** * Further properties of the code *)

(** ** [_merge_ranges] (lines 138-152) *)

(** X1: the output of [_merge_ranges] spans exactly the IDs its input
    covers, each input range read with its bounds in order: merging adds
    no ID and loses none. *)
Theorem merge_ranges_same_ids (ranges : list IDRange) (n : Z) :
  (exists o, In o (_merge_ranges ranges) /\ o.1 <= n <= o.2) <->
  (exists r, In r ranges /\ Z.min r.1 r.2 <= n <= Z.max r.1 r.2).
Proof.
  destruct (merge_ranges_spec ranges) as [_ Hspan]. apply (Hspan n).
Qed.

(** X2: the lists [_merge_ranges] leaves alone are exactly the canonical
    ones: non-empty ranges by increasing bound with at least one ID
    missing between neighbours. *)
Theorem merge_ranges_fixed_points (ranges : list IDRange) :
  _merge_ranges ranges = ranges <-> canonical ranges.
Proof.
  split.
  - intros <-. apply merge_ranges_spec.
  - intros Hc. destruct (merge_ranges_spec ranges) as [Hm Hspan].
    apply canonical_unique; [done | done |].
    intros n. rewrite Hspan. now apply canonical_covers.
Qed.

Lemma merge_from_length rest : forall lst,
  (1 <= length (merge_from lst rest) <= S (length rest))%nat.
Proof.
  induction rest as [|cur rest IH]; intros lst; simpl; [lia|].
  destruct (cur.1 <=? lst.2 + 1).
  - specialize (IH (lst.1, Z.max lst.2 cur.2)). lia.
  - specialize (IH cur). simpl. lia.
Qed.

(** X3: [_merge_ranges] never returns more ranges than it was given, and
    returns none only for the empty list. *)
Theorem merge_ranges_length (ranges : list IDRange) :
  (length (_merge_ranges ranges) <= length ranges)%nat /\
  (_merge_ranges ranges = [] <-> ranges = []).
Proof.
  rewrite merge_ranges_unfold.
  pose proof (Permutation_length (sorted_by_low_perm (map sorted_pair ranges))) as Hlen.
  rewrite length_map in Hlen.
  destruct (sorted_by_low (map sorted_pair ranges)) as [|first rest]; simpl in Hlen.
  - split; [simpl; lia|]. split; [|done]. intros _. now destruct ranges.
  - pose proof (merge_from_length rest first) as Hm. split; [lia|]. split.
    + intros E. rewrite E in Hm. simpl in Hm. lia.
    + intros ->. discriminate Hlen.
Qed.

(** ** [_get_path_for_id] (lines 50-63) *)

Lemma str_inj a b : str a = str b -> a = b.
Proof.
  unfold str. intros H. apply DecimalZ.to_int_inj.
  assert (Hnonnil : forall z, Z.to_int z <> Decimal.Pos Decimal.Nil /\
                              Z.to_int z <> Decimal.Neg Decimal.Nil).
  { intros [|p|p]; simpl; split; try discriminate; intros [= E];
      now apply DecimalPos.Unsigned.to_uint_nonnil in E. }
  destruct (Hnonnil a), (Hnonnil b).
  assert (E : NilZero.int_of_string (NilZero.string_of_int (Z.to_int a))
            = NilZero.int_of_string (NilZero.string_of_int (Z.to_int b))) by now rewrite H.
  rewrite !NilZero.isi in E by done. congruence.
Qed.

Lemma string_app_length (s t : string) :
  String.length (s +:+ t) = (String.length s + String.length t)%nat.
Proof. induction s as [|c s IH]; simpl; [done|]. now rewrite IH. Qed.

Lemma string_app_inv_tail (s1 s2 t : string) : s1 +:+ t = s2 +:+ t -> s1 = s2.
Proof.
  revert s2. induction s1 as [|c s1 IH]; intros [|d s2] H; simpl in H.
  - done.
  - apply (f_equal String.length) in H. simpl in H.
    rewrite !string_app_length in H. simpl in H. lia.
  - apply (f_equal String.length) in H. simpl in H.
    rewrite !string_app_length in H. simpl in H. lia.
  - injection H as -> H. f_equal. now apply IH.
Qed.

(** X4: for a given prefix and extension, two different IDs never get the
    same path. *)
Theorem get_path_for_id_injective (prefix extension : string) (a b : Z) :
  _get_path_for_id prefix a extension = _get_path_for_id prefix b extension <-> a = b.
Proof.
  split; [|now intros ->].
  unfold _get_path_for_id, DATA_ROOT. simpl app. intros H.
  apply (f_equal (fun p : Path => p !! 4%nat)) in H. simpl in H. injection H as H.
  apply string_app_inv_tail in H. now apply str_inj.
Qed.

(** X5: two IDs of the same block of 100 (the same value of
    [(id - 1) // 100]) are stored in the same directory, for extensions
    that hold no ['/'] (as ["xml"] and ["jpg"] do): the last component is
    then the file name, and the components before it are the parent. *)
Theorem get_path_for_id_same_directory (prefix ext1 ext2 : string) (a b : Z) :
  has_char "/" ext1 = false ->
  has_char "/" ext2 = false ->
  (a - 1) / 100 = (b - 1) / 100 ->
  removelast (_get_path_for_id prefix a ext1) = removelast (_get_path_for_id prefix b ext2).
Proof.
  intros _ _ H100.
  assert (H10000 : (a - 1) / 10000 = (b - 1) / 10000).
  { change 10000 with (100 * 100). rewrite <- !Z.div_div by lia. now rewrite H100. }
  assert (H1000000 : (a - 1) / 1000000 = (b - 1) / 1000000).
  { change 1000000 with (10000 * 100). rewrite <- !Z.div_div by lia. now rewrite H10000. }
  unfold _get_path_for_id, DATA_ROOT. simpl app. cbn [removelast].
  now rewrite H100, H10000, H1000000.
Qed.

Lemma get_path_for_id_same_directory_witness :
  has_char "/" "xml" = false /\
  has_char "/" "jpg" = false /\
  (50501 - 1) / 100 = (50600 - 1) / 100 /\
  removelast (_get_path_for_id "sm" 50501 "xml") = removelast (_get_path_for_id "sm" 50600 "jpg") /\
  removelast (_get_path_for_id "sm" 50600 "jpg") = ["sm"; "1-1000000"; "50001-60000"; "50501-50600"].
Proof.
  split; [reflexivity|]. split; [reflexivity|]. split; [reflexivity|]. split; [|reflexivity].
  apply (get_path_for_id_same_directory "sm" "xml" "jpg" 50501 50600); reflexivity.
Defined.

(** ** [_fetch_with_retry] and [get_latest_video_id] (lines 90-134) *)

Lemma after_retries_S k url w :
  after_retries k url (sleep RETRY_WAIT_SECONDS (requested url w)) = after_retries (S k) url w.
Proof.
  unfold after_retries; simpl. f_equal.
  - change (url :: gets w) with ([url] ++ gets w). rewrite app_assoc.
    change (url :: replicate k url ++ gets w) with ((url :: replicate k url) ++ gets w).
    f_equal. induction k; simpl; congruence.
  - change (RETRY_WAIT_SECONDS :: sleeps w) with ([RETRY_WAIT_SECONDS] ++ sleeps w).
    rewrite app_assoc.
    change (RETRY_WAIT_SECONDS :: replicate k RETRY_WAIT_SECONDS ++ sleeps w)
      with ((RETRY_WAIT_SECONDS :: replicate k RETRY_WAIT_SECONDS) ++ sleeps w).
    f_equal. induction k; simpl; congruence.
Qed.

(** How a fetch of [n] rounds can end: on a 200 or a 404 at some round
    [k], every earlier round retried, or with all [n] rounds retried. *)
Lemma fetch_rounds_outcome env n : forall url w,
  (exists (k : nat) (code : Z) (body : string),
      (k < n)%nat /\
      (forall i, (i < k)%nat -> retried (session_get env (length (gets w) + i) url)) /\
      session_get env (length (gets w) + k) url = HttpResponse code body /\
      ((code = 200 /\ (fetch_rounds env n url w).1 = Some body) \/
       (code = 404 /\ (fetch_rounds env n url w).1 = None)) /\
      (fetch_rounds env n url w).2 = requested url (after_retries k url w)) \/
  ((forall i, (i < n)%nat -> retried (session_get env (length (gets w) + i) url)) /\
   fetch_rounds env n url w = (None, after_retries n url w)).
Proof.
  induction n as [|n IH]; intros url w.
  - right. split; [lia|]. simpl. now rewrite after_retries_0.
  - assert (Hretry : retried (session_get env (length (gets w)) url) ->
        fetch_rounds env (S n) url w
          = fetch_rounds env n url (sleep RETRY_WAIT_SECONDS (requested url w)) ->
        (exists (k : nat) (code : Z) (body : string),
            (k < S n)%nat /\
            (forall i, (i < k)%nat -> retried (session_get env (length (gets w) + i) url)) /\
            session_get env (length (gets w) + k) url = HttpResponse code body /\
            ((code = 200 /\ (fetch_rounds env (S n) url w).1 = Some body) \/
             (code = 404 /\ (fetch_rounds env (S n) url w).1 = None)) /\
            (fetch_rounds env (S n) url w).2 = requested url (after_retries k url w)) \/
        ((forall i, (i < S n)%nat -> retried (session_get env (length (gets w) + i) url)) /\
         fetch_rounds env (S n) url w = (None, after_retries (S n) url w))).
    { intros Hfirst ->.
      assert (Hshift : forall i,
                session_get env (length (gets (sleep RETRY_WAIT_SECONDS (requested url w))) + i) url
                = session_get env (length (gets w) + S i) url).
      { intros i. simpl. now rewrite Nat.add_succ_r. }
      assert (Hearlier : forall k,
                (forall i, (i < k)%nat -> retried (session_get env (length (gets w) + S i) url)) ->
                forall i, (i < S k)%nat -> retried (session_get env (length (gets w) + i) url)).
      { intros k Hall [|i] Hi; [now rewrite Nat.add_0_r | apply Hall; lia]. }
      destruct (IH url (sleep RETRY_WAIT_SECONDS (requested url w)))
        as [(k & code & body & Hk & Hall & Hkth & Hres & Hworld) | [Hall Hres]].
      - left. exists (S k), code, body. split; [lia|]. split.
        + apply Hearlier. intros i Hi. rewrite <- Hshift. now apply Hall.
        + split; [now rewrite <- Hshift|]. split; [exact Hres|].
          now rewrite Hworld, after_retries_S.
      - right. split.
        + apply Hearlier. intros i Hi. rewrite <- Hshift. now apply Hall.
        + now rewrite Hres, after_retries_S. }
    cbn [fetch_rounds] in *.
    destruct (session_get env (length (gets w)) url) as [code body|] eqn:Hfirst.
    + destruct (Z.eqb_spec code 200) as [->|H200].
      * left. exists 0%nat, 200, body. split; [lia|]. split; [lia|].
        rewrite Nat.add_0_r, after_retries_0. auto.
      * destruct (Z.eqb_spec code 404) as [->|H404].
        -- left. exists 0%nat, 404, body. split; [lia|]. split; [lia|].
           rewrite Nat.add_0_r, after_retries_0. auto.
        -- apply Hretry; simpl; auto.
    + apply Hretry; simpl; auto.
Qed.

(** X6: whatever [_fetch_with_retry] returns has one of three histories.
    A body is returned only as the body of a 200 answer at some round
    [k < RETRY_COUNT], and [None] only after a 404 at such a round or after
    [RETRY_COUNT] rounds; every round before the last one got a transport
    error or a status other than 200 and 404, and was followed by one
    sleep. *)
Theorem fetch_with_retry_outcome (env : Env) (url : string) (w : World) :
  (exists (k : nat) (body : string),
      (k < RETRY_COUNT)%nat /\
      (forall i, (i < k)%nat -> retried (session_get env (length (gets w) + i) url)) /\
      session_get env (length (gets w) + k) url = HttpResponse 200 body /\
      _fetch_with_retry env url w = (Some body, requested url (after_retries k url w))) \/
  (exists (k : nat) (body : string),
      (k < RETRY_COUNT)%nat /\
      (forall i, (i < k)%nat -> retried (session_get env (length (gets w) + i) url)) /\
      session_get env (length (gets w) + k) url = HttpResponse 404 body /\
      _fetch_with_retry env url w = (None, requested url (after_retries k url w))) \/
  ((forall i, (i < RETRY_COUNT)%nat ->
      retried (session_get env (length (gets w) + i) url)) /\
   _fetch_with_retry env url w = (None, after_retries RETRY_COUNT url w)).
Proof.
  unfold _fetch_with_retry.
  destruct (fetch_rounds_outcome env RETRY_COUNT url w)
    as [(k & code & body & Hk & Hall & Hkth & Hres & Hworld) | H]; [|auto].
  destruct (fetch_rounds env RETRY_COUNT url w) as [res w'] eqn:E. simpl in *. subst w'.
  destruct Hres as [[-> ->] | [-> ->]].
  - left. exists k, body. auto.
  - right; left. exists k, body. auto.
Qed.



(** ** What one ID costs and leaves (lines 196-262) *)

Lemma spent_refl n w : spent n w w.
Proof. exists 0%nat, 0%nat. repeat split; lia || done. Qed.

Lemma spent_trans n m w1 w2 w3 : spent n w1 w2 -> spent m w2 w3 -> spent (n + m) w1 w3.
Proof.
  intros (k1 & j1 & H1 & Hg1 & Hs1) (k2 & j2 & H2 & Hg2 & Hs2).
  exists (k2 + k1)%nat, (j2 + j1)%nat. split; [lia|]. split; [lia|].
  rewrite Hs2, Hs1, app_assoc. f_equal. symmetry. apply replicate_add.
Qed.

Lemma spent_mono n m w w' : (n <= m)%nat -> spent n w w' -> spent m w w'.
Proof. intros Hnm (k & j & H & Hg & Hs). exists k, j. split; [lia | done]. Qed.

Lemma spent_write_file n w w' p content : spent n w w' -> spent n w (write_file p content w').
Proof. intros (k & j & H). exists k, j. exact H. Qed.

Lemma fetch_spent env url w : spent RETRY_COUNT w (_fetch_with_retry env url w).2.
Proof.
  destruct (fetch_rounds_bounded env RETRY_COUNT url w) as (k & Hk & Hg & j & Hj & Hs).
  exists k, j. split; [lia|]. split; [|exact Hs].
  unfold _fetch_with_retry. rewrite Hg, length_app, length_replicate. done.
Qed.

Lemma fetch_thumbnail_spent env url w :
  spent (RETRY_COUNT + RETRY_COUNT) w (fetch_thumbnail env url w).2 /\
  files (fetch_thumbnail env url w).2 = files w.
Proof.
  unfold fetch_thumbnail. destruct (has_char _ _).
  - pose proof (fetch_spent env (url +:+ ".L") w) as H1.
    pose proof (fetch_frame env (url +:+ ".L") w) as (_ & Hf1 & _).
    destruct (_fetch_with_retry env (url +:+ ".L") w) as [img w1]; cbn [fst snd] in *.
    destruct (present img); cbn [fst snd].
    + split; [|done]. eapply spent_mono; [|exact H1]. lia.
    + pose proof (fetch_spent env url w1) as H2.
      pose proof (fetch_frame env url w1) as (_ & Hf2 & _).
      split; [|congruence]. exact (spent_trans _ _ _ _ _ H1 H2).
  - pose proof (fetch_frame env url w) as (_ & Hf & _). split; [|done].
    eapply spent_mono; [|apply fetch_spent]. lia.
Qed.

(** X8: for one ID the loop makes at most three fetches, so at most
    [3 * RETRY_COUNT] requests, and sleeps only [RETRY_WAIT_SECONDS] at a
    time, at most once per request.  It writes nothing, or the thumbinfo
    document alone, or the document and then the thumbnail, both at the
    paths of this ID; a thumbnail is written only next to a document that
    parsed with status ok, and neither file is ever empty. *)
Theorem process_id_effects (env : Env) (current_id : Z) (w : World) :
  spent (3 * RETRY_COUNT) w (process_id env current_id w) /\
  (written w (process_id env current_id w) [] \/
   (exists text,
       text <> ""%string /\
       written w (process_id env current_id w)
               [(_get_path_for_id VIDEO_PREFIX current_id "xml", text)]) \/
   (exists text img root,
       text <> ""%string /\ img <> ""%string /\
       parse_thumbinfo env text = Some root /\ status_ok root = true /\
       written w (process_id env current_id w)
               [(_get_path_for_id VIDEO_PREFIX current_id "jpg", img);
                (_get_path_for_id VIDEO_PREFIX current_id "xml", text)])).
Proof.
  assert (Htruthy : forall t, truthy t = true -> t <> ""%string).
  { intros t. unfold truthy. now destruct (String.eqb_spec t ""). }
  change (3 * RETRY_COUNT)%nat with (RETRY_COUNT + (RETRY_COUNT + RETRY_COUNT))%nat.
  assert (Hone : forall w', spent RETRY_COUNT w w' ->
                            spent (RETRY_COUNT + (RETRY_COUNT + RETRY_COUNT)) w w').
  { intros w'. apply spent_mono. lia. }
  unfold process_id, written.
  pose proof (fetch_spent env (GETTHUMBINFO_API_URL +:+ VIDEO_PREFIX +:+ str current_id) w)
    as Hs1.
  pose proof (fetch_frame env (GETTHUMBINFO_API_URL +:+ VIDEO_PREFIX +:+ str current_id) w)
    as (_ & Hf1 & _).
  destruct (_fetch_with_retry env _ w) as [[text|] w1]; cbn [fst snd] in *; [|auto].
  destruct (truthy text) eqn:Htext; [|auto].
  assert (Hdoc : spent (RETRY_COUNT + (RETRY_COUNT + RETRY_COUNT)) w
                   (write_file (_get_path_for_id VIDEO_PREFIX current_id "xml") text w1) /\
                 (files (write_file (_get_path_for_id VIDEO_PREFIX current_id "xml") text w1)
                    = files w \/
                  (exists text0, text0 <> ""%string /\
                     files (write_file (_get_path_for_id VIDEO_PREFIX current_id "xml") text w1)
                       = [(_get_path_for_id VIDEO_PREFIX current_id "xml", text0)] ++ files w) \/
                  (exists text0 img root,
                     text0 <> ""%string /\ img <> ""%string /\
                     parse_thumbinfo env text0 = Some root /\ status_ok root = true /\
                     files (write_file (_get_path_for_id VIDEO_PREFIX current_id "xml") text w1)
                       = [(_get_path_for_id VIDEO_PREFIX current_id "jpg", img);
                          (_get_path_for_id VIDEO_PREFIX current_id "xml", text0)] ++ files w))).
  { split; [now apply spent_write_file, Hone|]. right; left. exists text.
    split; [auto|]. simpl. now rewrite Hf1. }
  destruct (parse_thumbinfo env text) as [root|] eqn:Hparse; [|exact Hdoc].
  destruct (status_ok root) eqn:Hok; [|exact Hdoc].
  destruct (thumbnail_url root) as [thumb_url|]; [|exact Hdoc].
  destruct (truthy thumb_url); [|exact Hdoc].
  pose proof (fetch_thumbnail_spent env thumb_url
                (write_file (_get_path_for_id VIDEO_PREFIX current_id "xml") text w1))
    as [Hs3 Hf3].
  assert (Hall : spent (RETRY_COUNT + (RETRY_COUNT + RETRY_COUNT)) w
                   (fetch_thumbnail env thumb_url
                      (write_file (_get_path_for_id VIDEO_PREFIX current_id "xml") text w1)).2).
  { eapply spent_trans; [|exact Hs3]. now apply spent_write_file. }
  destruct (fetch_thumbnail env thumb_url _) as [[img|] w3]; cbn [fst snd] in *.
  - destruct (truthy img) eqn:Himg.
    + split; [now apply spent_write_file|]. right; right. exists text, img, root.
      repeat split; auto. simpl. rewrite Hf3. simpl. now rewrite Hf1.
    + split; [done|]. right; left. exists text. split; [auto|].
      rewrite Hf3. simpl. now rewrite Hf1.
  - split; [done|]. right; left. exists text. split; [auto|].
    rewrite Hf3. simpl. now rewrite Hf1.
Qed.

Lemma find_skip_outside processed c : ~ spans processed c -> find_skip processed c = None.
Proof.
  intros Hout. destruct (find_skip processed c) as [r|] eqn:E; [|done].
  apply find_skip_some in E as [Hin Hc]. exfalso. apply Hout. now exists r.
Qed.

(** X9: an ID whose thumbinfo request is answered 404 still counts: the
    pass records it as [end_id_this_run], moves the cursor one down and
    goes on; it made that one request, slept for no retry and wrote no
    file. *)
Theorem missing_document_is_attempted (env : Env) (start : Z) (processed : list IDRange)
    (s : Walk) (body : string) :
  OLDEST_VIDEO_ID <= current_id s ->
  time_time env (clock_reads (world s)) - start <= EXECUTION_LIMIT_MINUTES * 60 ->
  ~ spans processed (current_id s) ->
  session_get env (length (gets (world s))) (thumbinfo_url (current_id s))
    = HttpResponse 404 body ->
  loop_body env start processed s
    = Continue (mkWalk (current_id s - 1) (current_id s) (current_id s :: visited s)
                  (sleep REQUEST_WAIT_SECONDS
                     (requested (thumbinfo_url (current_id s)) (tick (world s))))).
Proof.
  intros Hfloor Hbudget Hout H404. unfold loop_body.
  destruct (Z.gtb_spec (time_time env (clock_reads (world s)) - start)
                       (EXECUTION_LIMIT_MINUTES * 60)); [lia|].
  rewrite (find_skip_outside _ _ Hout).
  destruct (Z.ltb_spec (current_id s) OLDEST_VIDEO_ID); [lia|].
  unfold process_id, _fetch_with_retry, thumbinfo_url in *. cbn [fetch_rounds RETRY_COUNT].
  cbn [tick gets]. rewrite H404. reflexivity.
Qed.

Lemma missing_document_is_attempted_witness :
  loop_body (env_of on_time (gone_at 0) 0) 0 [(500, 600)] (mkWalk 499 601 [601] empty_world)
    = Continue (mkWalk 498 499 [499; 601]
                  (mkWorld 1 ["https://ext.nicovideo.jp/api/getthumbinfo/sm499"] [0] [] [])).
Proof.
  apply (missing_document_is_attempted (env_of on_time (gone_at 0) 0) 0 [(500, 600)]
           (mkWalk 499 601 [601] empty_world) "").
  - unfold OLDEST_VIDEO_ID; simpl; lia.
  - unfold EXECUTION_LIMIT_MINUTES, on_time; simpl; lia.
  - intros (r & [<- | []] & Hr). unfold inside in Hr; simpl in Hr; lia.
  - reflexivity.
Defined.

(** ** [run] as a whole (lines 154-273) *)

(** X10: when the frontier is resolved but the record has no entry for
    [VIDEO_PREFIX], [run] ends with the [KeyError] of line 162: no ID is
    visited and nothing is written, neither data files nor the progress
    file. *)
Theorem missing_prefix_raises (env : Env) (self : NicoArchiver) (w : World) (newest : Z) :
  (get_latest_video_id env w).1 = Some newest ->
  progress_data self !! VIDEO_PREFIX = None ->
  exists rep,
    run env self w = Some rep /\
    exit rep = RaisedKeyError /\
    walked rep = [] /\
    data rep = progress_data self /\
    saved (after rep) = saved w /\
    files (after rep) = files w /\
    clock_reads (after rep) = clock_reads w.
Proof.
  intros Hlatest Hmissing. pose proof (get_latest_frame env w) as (Hc & Hf & Hs).
  unfold run. destruct (get_latest_video_id env w) as [latest w1]. simpl in *. subst latest.
  rewrite Hmissing. eexists. split; [reflexivity|]. simpl. repeat split; assumption.
Qed.

Lemma missing_prefix_raises_witness :
  (get_latest_video_id (env_of on_time search_then_404 10100) (tick empty_world)).1
    = Some 10100 /\
  progress_data (mkArchiver 0 (delete VIDEO_PREFIX (_load_progress None))) !! VIDEO_PREFIX
    = None /\
  exists rep,
    run (env_of on_time search_then_404 10100)
        (mkArchiver 0 (delete VIDEO_PREFIX (_load_progress None))) (tick empty_world)
      = Some rep /\
    exit rep = RaisedKeyError /\
    walked rep = [] /\
    data rep = progress_data (mkArchiver 0 (delete VIDEO_PREFIX (_load_progress None))) /\
    saved (after rep) = saved (tick empty_world) /\
    files (after rep) = files (tick empty_world) /\
    clock_reads (after rep) = clock_reads (tick empty_world).
Proof.
  split; [reflexivity|]. split; [vm_compute; reflexivity|].
  apply (missing_prefix_raises (env_of on_time search_then_404 10100)
           (mkArchiver 0 (delete VIDEO_PREFIX (_load_progress None))) (tick empty_world) 10100).
  - reflexivity.
  - vm_compute; reflexivity.
Defined.

(** X11: whenever [get_latest_video_id] returns, an ID or [None], [run]
    ends in one of the three ways of [Exit], and in each of them the
    entries of the record under every key other than [VIDEO_PREFIX] are
    what they were, and the progress file is written at most once, with
    the record [run] leaves in memory.  (A run in which the frontier parse
    raises is outside the model, see [Env].) *)
Theorem run_keeps_other_namespaces (env : Env) (self : NicoArchiver) (w : World)
    (latest : option Z) (w1 : World) :
  get_latest_video_id env w = (latest, w1) ->
  exists rep,
    run env self w = Some rep /\
    (forall key : string, key <> VIDEO_PREFIX -> data rep !! key = progress_data self !! key) /\
    (saved (after rep) = saved w \/ saved (after rep) = data rep :: saved w).
Proof.
  intros Hlatest. pose proof (get_latest_frame env w) as (_ & _ & Hs).
  rewrite Hlatest in Hs. simpl in Hs. destruct latest as [newest|].
  - destruct (progress_data self !! VIDEO_PREFIX) as [entry|] eqn:Hentry.
    + destruct (run_completed env self w newest w1 entry Hlatest Hentry)
        as (s & _ & _ & Hsaved & Hrun).
      eexists. split; [exact Hrun|]. simpl. split.
      * intros key Hkey. now rewrite lookup_insert_ne.
      * right. congruence.
    + unfold run. rewrite Hlatest, Hentry. eexists. split; [reflexivity|]. simpl. auto.
  - unfold run. rewrite Hlatest. eexists. split; [reflexivity|]. simpl. auto.
Qed.

Lemma run_keeps_other_namespaces_witness :
  get_latest_video_id (env_of (late_from 3) search_then_404 10100) (tick empty_world)
    = (Some 10100, requested LATEST_VIDEO_API_URL (tick empty_world)) /\
  exists rep,
    run (env_of (late_from 3) search_then_404 10100) (archiver [(50, 98)] None)
        (tick empty_world) = Some rep /\
    (forall key : string, key <> VIDEO_PREFIX ->
       data rep !! key = progress_data (archiver [(50, 98)] None) !! key) /\
    (saved (after rep) = saved (tick empty_world) \/
     saved (after rep) = data rep :: saved (tick empty_world)).
Proof.
  split; [reflexivity|].
  apply (run_keeps_other_namespaces
           (env_of (late_from 3) search_then_404 10100) (archiver [(50, 98)] None)
           (tick empty_world) (Some 10100)
           (requested LATEST_VIDEO_API_URL (tick empty_world))).
  reflexivity.
Defined.

Lemma loop_body_sorted env start start_id processed s :
  walk_inv start_id processed s ->
  StronglySorted Z.lt (visited s) ->
  StronglySorted Z.lt (visited (step_state (loop_body env start processed s))).
Proof.
  intros (_ & _ & Hall) Hsorted. unfold loop_body. destruct (_ >? _); [done|].
  destruct (find_skip processed (current_id s)); [done|].
  destruct (current_id s <? OLDEST_VIDEO_ID); [done|]. simpl.
  constructor; [done|]. eapply Forall_impl; [exact Hall|]. simpl. tauto.
Qed.

Lemma while_loop_sorted env start start_id processed fuel : forall s s',
  walk_inv start_id processed s ->
  StronglySorted Z.lt (visited s) ->
  while_loop fuel env start processed s = Some s' ->
  StronglySorted Z.lt (visited s').
Proof.
  induction fuel as [|fuel IH]; intros s s' Hinv Hsorted; [done|]. simpl.
  destruct (current_id s >=? OLDEST_VIDEO_ID); [|now intros [= <-]].
  pose proof (loop_body_inv env start start_id processed s Hinv) as Hinv1.
  pose proof (loop_body_sorted env start start_id processed s Hinv Hsorted) as Hsorted1.
  destruct (loop_body env start processed s) as [s1|s1]; simpl in *.
  - now intros [= <-].
  - now apply IH.
Qed.

(** X12: the IDs a run visits are visited in strictly decreasing order
    (so none twice), all lie between the floor and the adjusted frontier,
    and none lies in a range the walk consulted. *)
Theorem visits_strictly_decrease (env : Env) (self : NicoArchiver) (w : World)
    (newest : Z) (w1 : World) (entry : Entry) :
  get_latest_video_id env w = (Some newest, w1) ->
  progress_data self !! VIDEO_PREFIX = Some entry ->
  exists rep,
    run env self w = Some rep /\
    StronglySorted Z.lt (walked rep) /\
    forall x, In x (walked rep) ->
      OLDEST_VIDEO_ID <= x <= newest - 10000 /\
      ~ spans (prepared_ranges (processed_ranges entry) (newest - 10000)) x.
Proof.
  intros Hlatest Hentry.
  destruct (run_completed env self w newest w1 entry Hlatest Hentry)
    as (s & Hs & Hinv & _ & Hrun).
  eexists. split; [exact Hrun|]. simpl. split.
  - eapply while_loop_sorted; [apply walk_inv_start | constructor | exact Hs].
  - intros x Hx. destruct Hinv as (_ & _ & Hall).
    rewrite List.Forall_forall in Hall. specialize (Hall x Hx). simpl in Hall. tauto.
Qed.

Lemma visits_strictly_decrease_witness :
  exists rep,
    run (env_of on_time search_then_200 10030) (archiver [(12, 20)] None) (tick empty_world)
      = Some rep /\
    walked rep = [9; 10; 11; 21; 22; 23; 24; 25; 26; 27; 28; 29; 30] /\
    StronglySorted Z.lt (walked rep) /\
    forall x, In x (walked rep) ->
      OLDEST_VIDEO_ID <= x <= 10030 - 10000 /\
      ~ spans (prepared_ranges (processed_ranges (mkEntry [(12, 20)] None)) (10030 - 10000)) x.
Proof.
  destruct (visits_strictly_decrease
              (env_of on_time search_then_200 10030) (archiver [(12, 20)] None)
              (tick empty_world) 10030
              (requested LATEST_VIDEO_API_URL (tick empty_world))
              (mkEntry [(12, 20)] None)) as (rep & Hrun & Hrest);
    [reflexivity | vm_compute; reflexivity |].
  exists rep. split; [exact Hrun|]. split; [|exact Hrest].
  vm_compute in Hrun. injection Hrun as <-. reflexivity.
Defined.

Lemma loop_body_covers env start start_id processed s :
  (forall x, current_id s < x <= start_id -> In x (visited s) \/ spans processed x) ->
  forall x, current_id (step_state (loop_body env start processed s)) < x <= start_id ->
    In x (visited (step_state (loop_body env start processed s))) \/ spans processed x.
Proof.
  intros Hcov x. unfold loop_body. destruct (_ >? _); [apply Hcov|].
  destruct (find_skip processed (current_id s)) as [r|] eqn:E; simpl.
  - apply find_skip_some in E as [Hin Hc]. unfold inside in Hc. intros Hx.
    destruct (Z.le_gt_cases x (current_id s)).
    + right. exists r. split; [done|]. unfold inside. lia.
    + apply Hcov. lia.
  - destruct (current_id s <? OLDEST_VIDEO_ID); simpl; [apply Hcov|]. intros Hx.
    destruct (Z.eq_dec x (current_id s)) as [->|]; [auto|].
    destruct (Hcov x); [lia | auto | auto].
Qed.

Lemma while_loop_covers env start start_id processed fuel : forall s s',
  (forall x, current_id s < x <= start_id -> In x (visited s) \/ spans processed x) ->
  while_loop fuel env start processed s = Some s' ->
  forall x, current_id s' < x <= start_id -> In x (visited s') \/ spans processed x.
Proof.
  induction fuel as [|fuel IH]; intros s s' Hcov; [done|]. simpl.
  destruct (current_id s >=? OLDEST_VIDEO_ID); [|now intros [= <-]].
  pose proof (loop_body_covers env start start_id processed s Hcov) as Hstep.
  destruct (loop_body env start processed s) as [s1|s1]; simpl in Hstep.
  - now intros [= <-].
  - now apply IH.
Qed.

Lemma while_loop_reaches_floor env start processed fuel : forall s s',
  (forall k, time_time env k - start <= EXECUTION_LIMIT_MINUTES * 60) ->
  while_loop fuel env start processed s = Some s' ->
  current_id s' < OLDEST_VIDEO_ID.
Proof.
  induction fuel as [|fuel IH]; intros s s' Hclock; [done|]. simpl.
  destruct (Z.geb_spec (current_id s) OLDEST_VIDEO_ID) as [Hge|Hlt];
    [|now intros [= <-]].
  unfold loop_body.
  destruct (Z.gtb_spec (time_time env (clock_reads (world s)) - start)
                       (EXECUTION_LIMIT_MINUTES * 60)) as [Hlate|_];
    [specialize (Hclock (clock_reads (world s))); lia|].
  destruct (find_skip processed (current_id s)); [now apply IH|].
  destruct (Z.ltb_spec (current_id s) OLDEST_VIDEO_ID); [lia|]. now apply IH.
Qed.

(** What a run that never runs out of budget has done when it ends: every
    ID of the window was visited or lay in a range the walk consulted. *)
Lemma run_in_budget env self w newest w1 entry :
  get_latest_video_id env w = (Some newest, w1) ->
  progress_data self !! VIDEO_PREFIX = Some entry ->
  (forall k, time_time env k - start_time self <= EXECUTION_LIMIT_MINUTES * 60) ->
  exists s,
    walk_inv (newest - 10000) (prepared_ranges (processed_ranges entry) (newest - 10000)) s /\
    saved (world s) = saved w /\
    (forall x, OLDEST_VIDEO_ID <= x <= newest - 10000 ->
       In x (visited s) \/
       spans (prepared_ranges (processed_ranges entry) (newest - 10000)) x) /\
    run env self w =
      Some (mkReport Completed
              (<[VIDEO_PREFIX :=
                   mkEntry (commit_ranges
                              (prepared_ranges (processed_ranges entry) (newest - 10000))
                              (end_id_this_run s) (newest - 10000))
                           (Some (newest - 10000))]> (progress_data self))
              (visited s) (end_id_this_run s)
              (write_progress
                 (<[VIDEO_PREFIX :=
                      mkEntry (commit_ranges
                                 (prepared_ranges (processed_ranges entry) (newest - 10000))
                                 (end_id_this_run s) (newest - 10000))
                              (Some (newest - 10000))]> (progress_data self))
                 (world s))).
Proof.
  intros Hlatest Hentry Hclock.
  destruct (run_completed env self w newest w1 entry Hlatest Hentry)
    as (s & Hs & Hinv & Hsaved & Hrun).
  exists s. split; [exact Hinv|]. split; [exact Hsaved|]. split; [|exact Hrun].
  intros x Hx.
  pose proof (while_loop_reaches_floor _ _ _ _ _ _ Hclock Hs) as Hfloor.
  apply (while_loop_covers _ _ (newest - 10000) _ _ _ _) with (x := x) in Hs; [done | | lia].
  simpl. intros y Hy. lia.
Qed.

Lemma while_loop_visited_grows env start processed fuel : forall s s' x,
  while_loop fuel env start processed s = Some s' ->
  In x (visited s) -> In x (visited s').
Proof.
  induction fuel as [|fuel IH]; intros s s' x; [done|]. simpl.
  destruct (current_id s >=? OLDEST_VIDEO_ID); [|now intros [= <-]].
  assert (Hstep : In x (visited s) ->
                  In x (visited (step_state (loop_body env start processed s)))).
  { unfold loop_body. destruct (_ >? _); [done|].
    destruct (find_skip processed (current_id s)); [done|].
    destruct (current_id s <? OLDEST_VIDEO_ID); [done|]. simpl. auto. }
  destruct (loop_body env start processed s) as [s1|s1]; simpl in Hstep.
  - intros [= <-]. exact Hstep.
  - intros Hloop Hx. eapply IH; eauto.
Qed.

(** C4: when the stored ranges merge to the single range from the floor to
    the adjusted frontier, [run] walks with no range at all.  Nothing is
    skipped: the IDs it visits run down from the adjusted frontier without
    a hole, and the frontier itself, which the stored range held, is
    visited as soon as the first budget test passes.  The stored range is
    gone from the record [run] saves: it holds no range if nothing was
    visited, and otherwise only the range of this run. *)
Theorem full_coverage_resets (env : Env) (self : NicoArchiver) (w : World)
    (newest : Z) (w1 : World) (entry : Entry) :
  get_latest_video_id env w = (Some newest, w1) ->
  progress_data self !! VIDEO_PREFIX = Some entry ->
  _merge_ranges (processed_ranges entry) = [(OLDEST_VIDEO_ID, newest - 10000)] ->
  prepared_ranges (processed_ranges entry) (newest - 10000) = [] /\
  exists rep,
    run env self w = Some rep /\
    (forall x y, In x (walked rep) -> x <= y <= newest - 10000 -> In y (walked rep)) /\
    (time_time env (clock_reads w) - start_time self <= EXECUTION_LIMIT_MINUTES * 60 ->
     In (newest - 10000) (walked rep)) /\
    (walked rep = [] ->
     data rep !! VIDEO_PREFIX = Some (mkEntry [] (Some (newest - 10000)))) /\
    (walked rep <> [] ->
     data rep !! VIDEO_PREFIX
       = Some (mkEntry [(lowest rep, newest - 10000)] (Some (newest - 10000)))) /\
    saved (after rep) = data rep :: saved w.
Proof.
  intros Hlatest Hentry Hmerged.
  destruct (merged_window_clears _ _ Hmerged) as (_ & Hreset & Hwindow).
  split; [exact Hreset|].
  destruct (run_completed env self w newest w1 entry Hlatest Hentry)
    as (s & Hs & Hinv & Hsaved & Hrun).
  rewrite Hreset in *.
  eexists. split; [exact Hrun|]. simpl.
  destruct (walk_inv_lowest _ _ _ Hinv) as [Hnone Hsome].
  split; [|split; [|split; [|split]]].
  - intros x y Hx Hy.
    destruct Hinv as (_ & _ & Hall). rewrite List.Forall_forall in Hall.
    specialize (Hall x Hx). simpl in Hall.
    assert (Hstart : forall z,
              current_id (mkWalk (newest - 10000) (-1) [] w1) < z <= newest - 10000 ->
              In z (visited (mkWalk (newest - 10000) (-1) [] w1)) \/ spans [] z)
      by (simpl; intros; lia).
    assert (Hy' : current_id s < y <= newest - 10000) by lia.
    destruct (while_loop_covers _ _ (newest - 10000) _ _ _ _ Hstart Hs y Hy')
      as [|Hspan]; [done|].
    now apply spans_nil in Hspan.
  - intros Hbudget. unfold walk, passes in Hs. cbn [while_loop current_id] in Hs.
    destruct (Z.geb_spec (newest - 10000) OLDEST_VIDEO_ID); [|lia].
    unfold loop_body in Hs. cbn [world current_id end_id_this_run visited] in Hs.
    assert (Hreads : clock_reads w1 = clock_reads w).
    { pose proof (get_latest_frame env w) as (Hc & _). now rewrite Hlatest in Hc. }
    rewrite Hreads in Hs.
    destruct (Z.gtb_spec (time_time env (clock_reads w) - start_time self)
                         (EXECUTION_LIMIT_MINUTES * 60)); [lia|].
    rewrite (find_skip_outside [] _ (spans_nil _)) in Hs.
    destruct (Z.ltb_spec (newest - 10000) OLDEST_VIDEO_ID); [lia|].
    eapply while_loop_visited_grows; [exact Hs|]. now left.
  - intros Hempty. rewrite lookup_insert_eq, (Hnone Hempty). reflexivity.
  - intros Hne. destruct (Hsome Hne) as (Hend & Hin & Hall).
    rewrite lookup_insert_eq. unfold commit_ranges.
    destruct (Z.eqb_spec (end_id_this_run s) (-1)); [done|]. simpl.
    destruct (Hall _ Hin) as [Hrange _].
    unfold _merge_ranges, sorted_pair. simpl.
    rewrite Z.min_l, Z.max_r by lia. reflexivity.
  - congruence.
Qed.

Lemma full_coverage_resets_witness :
  OLDEST_VIDEO_ID = 9 /\
  _merge_ranges [(9, 100000)] = [(OLDEST_VIDEO_ID, 110000 - 10000)] /\
  (exists rep,
     run (env_of (late_from 3) search_then_404 110000) (archiver [(9, 100000)] (Some 100000))
         (tick empty_world) = Some rep /\
     walked rep = [99999; 100000] /\
     data rep !! VIDEO_PREFIX = Some (mkEntry [(99999, 100000)] (Some 100000))) /\
  prepared_ranges (processed_ranges (mkEntry [(9, 100000)] (Some 100000))) (110000 - 10000)
    = [] /\
  exists rep,
    run (env_of (late_from 3) search_then_404 110000) (archiver [(9, 100000)] (Some 100000))
        (tick empty_world) = Some rep /\
    (forall x y, In x (walked rep) -> x <= y <= 110000 - 10000 -> In y (walked rep)) /\
    (time_time (env_of (late_from 3) search_then_404 110000) (clock_reads (tick empty_world))
       - start_time (archiver [(9, 100000)] (Some 100000)) <= EXECUTION_LIMIT_MINUTES * 60 ->
     In (110000 - 10000) (walked rep)) /\
    (walked rep = [] ->
     data rep !! VIDEO_PREFIX = Some (mkEntry [] (Some (110000 - 10000)))) /\
    (walked rep <> [] ->
     data rep !! VIDEO_PREFIX
       = Some (mkEntry [(lowest rep, 110000 - 10000)] (Some (110000 - 10000)))) /\
    saved (after rep) = data rep :: saved (tick empty_world).
Proof.
  split; [reflexivity|]. split; [reflexivity|]. split.
  - eexists. split; [vm_compute; reflexivity|]. split; vm_compute; reflexivity.
  - apply (full_coverage_resets
             (env_of (late_from 3) search_then_404 110000)
             (archiver [(9, 100000)] (Some 100000)) (tick empty_world) 110000
             (requested LATEST_VIDEO_API_URL (tick empty_world))
             (mkEntry [(9, 100000)] (Some 100000))).
    + reflexivity.
    + vm_compute; reflexivity.
    + reflexivity.
Defined.

(** X13: a run whose budget is never exceeded leaves no hole: every ID
    from the floor to the adjusted frontier lies in a range of the record
    it saves. *)
Theorem run_in_budget_covers_window (env : Env) (self : NicoArchiver) (w : World)
    (newest : Z) (w1 : World) (entry : Entry) :
  get_latest_video_id env w = (Some newest, w1) ->
  progress_data self !! VIDEO_PREFIX = Some entry ->
  (forall k, time_time env k - start_time self <= EXECUTION_LIMIT_MINUTES * 60) ->
  exists rep final,
    run env self w = Some rep /\
    data rep !! VIDEO_PREFIX = Some final /\
    saved (after rep) = data rep :: saved w /\
    forall x, OLDEST_VIDEO_ID <= x <= newest - 10000 ->
      exists r, In r (processed_ranges final) /\ r.1 <= x <= r.2.
Proof.
  intros Hlatest Hentry Hclock.
  destruct (run_in_budget env self w newest w1 entry Hlatest Hentry Hclock)
    as (s & Hinv & Hsaved & Hcov & Hrun).
  eexists. eexists. split; [exact Hrun|]. simpl. split; [apply lookup_insert_eq|].
  split; [congruence|]. simpl. intros x Hx.
  pose proof (prepared_ranges_canonical (processed_ranges entry) (newest - 10000)) as Hcanon.
  destruct (walk_inv_lowest _ _ _ Hinv) as [Hnone Hsome].
  unfold commit_ranges. destruct (visited s) as [|c visited'] eqn:Hvisited.
  - rewrite (Hnone eq_refl). simpl. destruct (Hcov x Hx) as [[] | Hspan]. exact Hspan.
  - destruct (Hsome ltac:(done)) as (Hend & Hin & Hall).
    destruct (Z.eqb_spec (end_id_this_run s) (-1)); [done|]. simpl.
    apply (proj2 (proj2 (merge_ranges_spec _) x)).
    destruct (Hcov x Hx) as [Hvis | (r & Hr & Hxr)].
    + exists (end_id_this_run s, newest - 10000). split; [apply in_or_app; right; now left|].
      destruct (Hall x Hvis) as [Hrange _]. destruct (Hall _ Hin) as [Hlow _].
      unfold inside, sorted_pair; simpl. lia.
    + exists r. split; [apply in_or_app; now left|].
      now rewrite sorted_pair_id by (eapply canonical_ordered; eauto).
Qed.

Lemma run_in_budget_covers_window_witness :
  exists rep final,
    run (env_of on_time search_then_404 10030) (archiver [(12, 20)] None) (tick empty_world)
      = Some rep /\
    data rep !! VIDEO_PREFIX = Some final /\
    saved (after rep) = data rep :: saved (tick empty_world) /\
    forall x, OLDEST_VIDEO_ID <= x <= 10030 - 10000 ->
      exists r, In r (processed_ranges final) /\ r.1 <= x <= r.2.
Proof.
  apply (run_in_budget_covers_window
           (env_of on_time search_then_404 10030) (archiver [(12, 20)] None)
           (tick empty_world) 10030
           (requested LATEST_VIDEO_API_URL (tick empty_world))
           (mkEntry [(12, 20)] None)).
  - reflexivity.
  - vm_compute; reflexivity.
  - intros k. unfold EXECUTION_LIMIT_MINUTES, on_time. simpl. lia.
Defined.

(** X14: a run that starts from no ranges (a fresh record, or one just
    reset) with the frontier at or above the floor, and whose budget is
    never exceeded, visits exactly the IDs from the floor to the adjusted
    frontier and saves the single range spanning them. *)
Theorem first_run_in_budget (env : Env) (self : NicoArchiver) (w : World)
    (newest : Z) (w1 : World) (entry : Entry) :
  get_latest_video_id env w = (Some newest, w1) ->
  progress_data self !! VIDEO_PREFIX = Some entry ->
  prepared_ranges (processed_ranges entry) (newest - 10000) = [] ->
  OLDEST_VIDEO_ID <= newest - 10000 ->
  (forall k, time_time env k - start_time self <= EXECUTION_LIMIT_MINUTES * 60) ->
  exists rep,
    run env self w = Some rep /\
    (forall x, In x (walked rep) <-> OLDEST_VIDEO_ID <= x <= newest - 10000) /\
    data rep !! VIDEO_PREFIX
      = Some (mkEntry [(OLDEST_VIDEO_ID, newest - 10000)] (Some (newest - 10000))) /\
    saved (after rep) = data rep :: saved w.
Proof.
  intros Hlatest Hentry Hempty Hwindow Hclock.
  destruct (run_in_budget env self w newest w1 entry Hlatest Hentry Hclock)
    as (s & Hinv & Hsaved & Hcov & Hrun).
  rewrite Hempty in *.
  assert (Hall : forall x, OLDEST_VIDEO_ID <= x <= newest - 10000 -> In x (visited s)).
  { intros x Hx. destruct (Hcov x Hx) as [|Hspan]; [done|]. now apply spans_nil in Hspan. }
  destruct (walk_inv_lowest _ _ _ Hinv) as [_ Hsome].
  assert (Hne : visited s <> []).
  { intros E. specialize (Hall OLDEST_VIDEO_ID ltac:(lia)). now rewrite E in Hall. }
  destruct (Hsome Hne) as (Hend & Hin & Hbounds).
  assert (Hlowest : end_id_this_run s = OLDEST_VIDEO_ID).
  { destruct (Hbounds _ Hin) as (_ & Hge & _).
    destruct (Hbounds _ (Hall OLDEST_VIDEO_ID ltac:(lia))) as (Hle & _). lia. }
  eexists. split; [exact Hrun|]. simpl. split; [|split; [|congruence]].
  - intros x. split; [|apply Hall]. intros Hx.
    destruct (Hbounds x Hx) as (? & ? & _). lia.
  - rewrite lookup_insert_eq. do 2 f_equal. unfold commit_ranges.
    destruct (Z.eqb_spec (end_id_this_run s) (-1)); [done|]. simpl. rewrite Hlowest.
    unfold _merge_ranges, sorted_pair. simpl. f_equal. f_equal; lia.
Qed.

Lemma first_run_in_budget_witness :
  exists rep,
    run (env_of on_time search_then_404 10030)
        (mkArchiver 0 (_load_progress None)) (tick empty_world) = Some rep /\
    (forall x, In x (walked rep) <-> OLDEST_VIDEO_ID <= x <= 10030 - 10000) /\
    data rep !! VIDEO_PREFIX
      = Some (mkEntry [(OLDEST_VIDEO_ID, 10030 - 10000)] (Some (10030 - 10000))) /\
    saved (after rep) = data rep :: saved (tick empty_world).
Proof.
  apply (first_run_in_budget
           (env_of on_time search_then_404 10030) (mkArchiver 0 (_load_progress None))
           (tick empty_world) 10030
           (requested LATEST_VIDEO_API_URL (tick empty_world))
           (mkEntry [] None)).
  - reflexivity.
  - vm_compute; reflexivity.
  - reflexivity.
  - unfold OLDEST_VIDEO_ID. lia.
  - intros k. unfold EXECUTION_LIMIT_MINUTES, on_time. simpl. lia.
Defined.

(** X15: the ranges a completed run saves are canonical (non-empty,
    increasing, at least one ID missing between neighbours); and unless
    the reset rule fired, every ID the stored ranges covered is still in
    one of them. *)
Theorem saved_ranges_canonical (env : Env) (self : NicoArchiver) (w : World)
    (newest : Z) (w1 : World) (entry : Entry) :
  get_latest_video_id env w = (Some newest, w1) ->
  progress_data self !! VIDEO_PREFIX = Some entry ->
  exists rep final,
    run env self w = Some rep /\
    data rep !! VIDEO_PREFIX = Some final /\
    saved (after rep) = data rep :: saved w /\
    canonical (processed_ranges final) /\
    (fully_covered (_merge_ranges (processed_ranges entry)) (newest - 10000) = false ->
     forall n, covers (processed_ranges entry) n ->
       exists r, In r (processed_ranges final) /\ r.1 <= n <= r.2).
Proof.
  intros Hlatest Hentry.
  destruct (run_completed env self w newest w1 entry Hlatest Hentry)
    as (s & _ & _ & Hsaved & Hrun).
  eexists. eexists. split; [exact Hrun|]. simpl. split; [apply lookup_insert_eq|].
  split; [congruence|]. simpl.
  pose proof (prepared_ranges_canonical (processed_ranges entry) (newest - 10000)) as Hcanon.
  unfold commit_ranges. split.
  - destruct (negb _); [apply merge_ranges_spec | exact Hcanon].
  - intros Hkept n Hn.
    assert (Hprep : spans (prepared_ranges (processed_ranges entry) (newest - 10000)) n).
    { unfold prepared_ranges. rewrite Hkept. now apply merge_ranges_spec. }
    destruct (negb _); [|exact Hprep].
    apply (proj2 (proj2 (merge_ranges_spec _) n)).
    destruct Hprep as (r & Hr & Hnr). exists r. split; [apply in_or_app; now left|].
    now rewrite sorted_pair_id by (eapply canonical_ordered; eauto).
Qed.

Lemma saved_ranges_canonical_witness :
  exists rep final,
    run (env_of (late_from 3) search_then_404 10100) (archiver [(50, 98); (20, 10)] None)
        (tick empty_world) = Some rep /\
    data rep !! VIDEO_PREFIX = Some final /\
    saved (after rep) = data rep :: saved (tick empty_world) /\
    canonical (processed_ranges final) /\
    (fully_covered (_merge_ranges (processed_ranges (mkEntry [(50, 98); (20, 10)] None)))
                   (10100 - 10000) = false ->
     forall n, covers (processed_ranges (mkEntry [(50, 98); (20, 10)] None)) n ->
       exists r, In r (processed_ranges final) /\ r.1 <= n <= r.2).
Proof.
  apply (saved_ranges_canonical
           (env_of (late_from 3) search_then_404 10100) (archiver [(50, 98); (20, 10)] None)
           (tick empty_world) 10100
           (requested LATEST_VIDEO_API_URL (tick empty_world))
           (mkEntry [(50, 98); (20, 10)] None)).
  - reflexivity.
  - vm_compute; reflexivity.
Defined.

(** X16: when the ranges the walk consults already span every ID from
    the floor to the adjusted frontier, the run visits nothing and saves
    those ranges unchanged with the new frontier. *)
Theorem covered_window_is_not_refetched (env : Env) (self : NicoArchiver) (w : World)
    (newest : Z) (w1 : World) (entry : Entry) :
  get_latest_video_id env w = (Some newest, w1) ->
  progress_data self !! VIDEO_PREFIX = Some entry ->
  (forall x, OLDEST_VIDEO_ID <= x <= newest - 10000 ->
     spans (prepared_ranges (processed_ranges entry) (newest - 10000)) x) ->
  exists rep,
    run env self w = Some rep /\
    walked rep = [] /\
    data rep = prepare (progress_data self) entry (newest - 10000) /\
    saved (after rep) = data rep :: saved w.
Proof.
  intros Hlatest Hentry Hcovered.
  destruct (run_completed env self w newest w1 entry Hlatest Hentry)
    as (s & _ & Hinv & Hsaved & Hrun).
  destruct (walk_inv_lowest _ _ _ Hinv) as [Hnone Hsome].
  assert (Hempty : visited s = []).
  { destruct (visited s) as [|c l] eqn:E; [done|]. exfalso.
    destruct (Hsome ltac:(done)) as (_ & Hin & Hall).
    destruct (Hall _ Hin) as (Hrange & Hfloor & Hout). apply Hout, Hcovered.
    destruct (Hall c ltac:(now left)) as (? & ? & _). lia. }
  eexists. split; [exact Hrun|]. simpl. split; [exact Hempty|]. split; [|congruence].
  rewrite (Hnone Hempty). reflexivity.
Qed.

Lemma covered_window_is_not_refetched_witness :
  exists rep,
    run (env_of on_time search_then_404 10100) (archiver [(1, 3); (9, 100)] (Some 100))
        (tick empty_world) = Some rep /\
    walked rep = [] /\
    data rep = prepare (progress_data (archiver [(1, 3); (9, 100)] (Some 100)))
                       (mkEntry [(1, 3); (9, 100)] (Some 100)) (10100 - 10000) /\
    saved (after rep) = data rep :: saved (tick empty_world).
Proof.
  apply (covered_window_is_not_refetched
           (env_of on_time search_then_404 10100) (archiver [(1, 3); (9, 100)] (Some 100))
           (tick empty_world) 10100
           (requested LATEST_VIDEO_API_URL (tick empty_world))
           (mkEntry [(1, 3); (9, 100)] (Some 100))).
  - reflexivity.
  - vm_compute; reflexivity.
  - intros x Hx. exists (9, 100). split; [right; now left|].
    unfold inside, OLDEST_VIDEO_ID in *. simpl in *. lia.
Defined.

Lemma loop_body_deadline env start processed (K : nat) s :
  (forall k, (K <= k)%nat -> time_time env k - start > EXECUTION_LIMIT_MINUTES * 60) ->
  match loop_body env start processed s with
  | Break s1 => visited s1 = visited s
  | Continue s1 =>
      (clock_reads (world s) < K)%nat /\
      (length (visited s1) <= S (length (visited s)))%nat
  end.
Proof.
  intros Hlate. unfold loop_body.
  destruct (Z.gtb_spec (time_time env (clock_reads (world s)) - start)
                       (EXECUTION_LIMIT_MINUTES * 60)) as [|Hok]; [done|].
  assert (Hbefore : (clock_reads (world s) < K)%nat).
  { destruct (Nat.lt_ge_cases (clock_reads (world s)) K) as [|Hge]; [done|].
    specialize (Hlate _ Hge). lia. }
  destruct (find_skip processed (current_id s)); [simpl; split; [done | lia]|].
  destruct (current_id s <? OLDEST_VIDEO_ID); [done|]. simpl. split; [done | lia].
Qed.

Lemma while_loop_deadline env start processed (K : nat) fuel : forall s s',
  (forall k, (K <= k)%nat -> time_time env k - start > EXECUTION_LIMIT_MINUTES * 60) ->
  while_loop fuel env start processed s = Some s' ->
  (clock_reads (world s') <= Nat.max (S K) (S (clock_reads (world s))))%nat /\
  (length (visited s') <= length (visited s) + (K - clock_reads (world s)))%nat.
Proof.
  induction fuel as [|fuel IH]; intros s s' Hlate; [done|]. simpl.
  destruct (current_id s >=? OLDEST_VIDEO_ID); [|intros [= <-]; lia].
  pose proof (loop_body_deadline env start processed K s Hlate) as Hstep.
  pose proof (loop_body_frame env start processed s) as [Hreads _].
  destruct (loop_body env start processed s) as [s1|s1]; simpl in *.
  - intros [= <-]. rewrite Hreads, Hstep. lia.
  - intros Hloop. destruct (IH _ _ Hlate Hloop) as [Hr Hv]. rewrite Hreads in Hr, Hv. lia.
Qed.

(** X17: the budget test ends the walk at the first reading of the clock
    that is past the limit.  If every reading from the [K]-th on is past
    the limit, the run reads the clock at most once at or after [K], and
    visits at most as many IDs as it made readings before [K]. *)
Theorem walk_stops_at_deadline (env : Env) (self : NicoArchiver) (w : World)
    (newest : Z) (w1 : World) (entry : Entry) (K : nat) :
  get_latest_video_id env w = (Some newest, w1) ->
  progress_data self !! VIDEO_PREFIX = Some entry ->
  (forall k, (K <= k)%nat ->
     time_time env k - start_time self > EXECUTION_LIMIT_MINUTES * 60) ->
  exists rep,
    run env self w = Some rep /\
    (clock_reads (after rep) <= Nat.max (S K) (S (clock_reads w)))%nat /\
    (length (walked rep) <= K - clock_reads w)%nat.
Proof.
  intros Hlatest Hentry Hlate.
  destruct (run_completed env self w newest w1 entry Hlatest Hentry)
    as (s & Hs & _ & _ & Hrun).
  eexists. split; [exact Hrun|]. simpl.
  destruct (while_loop_deadline _ _ _ K _ _ _ Hlate Hs) as [Hr Hv]. simpl in Hr, Hv.
  pose proof (get_latest_frame env w) as (Hc & _). rewrite Hlatest in Hc. simpl in Hc.
  rewrite Hc in Hr, Hv. done.
Qed.

Lemma walk_stops_at_deadline_witness :
  exists rep,
    run (env_of (late_from 3) search_then_404 10100) (archiver [(50, 98)] None)
        (tick empty_world) = Some rep /\
    walked rep = [99; 100] /\
    clock_reads (after rep) = 4%nat /\
    (clock_reads (after rep) <= Nat.max (S 3) (S (clock_reads (tick empty_world))))%nat /\
    (length (walked rep) <= 3 - clock_reads (tick empty_world))%nat.
Proof.
  destruct (walk_stops_at_deadline
              (env_of (late_from 3) search_then_404 10100) (archiver [(50, 98)] None)
              (tick empty_world) 10100
              (requested LATEST_VIDEO_API_URL (tick empty_world))
              (mkEntry [(50, 98)] None) 3%nat) as (rep & Hrun & Hbounds).
  - reflexivity.
  - vm_compute; reflexivity.
  - intros k Hk. simpl. unfold late_from, EXECUTION_LIMIT_MINUTES.
    destruct (Nat.ltb_spec k 3); lia.
  - exists rep. split; [exact Hrun|]. split; [|split; [|exact Hbounds]];
      vm_compute in Hrun; injection Hrun as <-; reflexivity.
Defined.

(** X18: a run whose budget is never exceeded visits exactly the IDs of
    the window that no consulted range holds: what earlier runs covered is
    not fetched again, and nothing else is left out. *)
Theorem run_in_budget_visits_uncovered (env : Env) (self : NicoArchiver) (w : World)
    (newest : Z) (w1 : World) (entry : Entry) :
  get_latest_video_id env w = (Some newest, w1) ->
  progress_data self !! VIDEO_PREFIX = Some entry ->
  (forall k, time_time env k - start_time self <= EXECUTION_LIMIT_MINUTES * 60) ->
  exists rep,
    run env self w = Some rep /\
    forall x, In x (walked rep) <->
      OLDEST_VIDEO_ID <= x <= newest - 10000 /\
      ~ spans (prepared_ranges (processed_ranges entry) (newest - 10000)) x.
Proof.
  intros Hlatest Hentry Hclock.
  destruct (run_in_budget env self w newest w1 entry Hlatest Hentry Hclock)
    as (s & Hinv & _ & Hcov & Hrun).
  eexists. split; [exact Hrun|]. simpl. intros x. split.
  - intros Hx. destruct Hinv as (_ & _ & Hall).
    rewrite List.Forall_forall in Hall. specialize (Hall x Hx). simpl in Hall. tauto.
  - intros [Hx Hout]. destruct (Hcov x Hx); [done | contradiction].
Qed.

Lemma run_in_budget_visits_uncovered_witness :
  exists rep,
    run (env_of on_time search_then_200 10030) (archiver [(9, 20); (25, 27)] (Some 20))
        (tick empty_world) = Some rep /\
    walked rep = [21; 22; 23; 24; 28; 29; 30] /\
    forall x, In x (walked rep) <->
      OLDEST_VIDEO_ID <= x <= 10030 - 10000 /\
      ~ spans (prepared_ranges (processed_ranges (mkEntry [(9, 20); (25, 27)] (Some 20)))
                               (10030 - 10000)) x.
Proof.
  destruct (run_in_budget_visits_uncovered
              (env_of on_time search_then_200 10030) (archiver [(9, 20); (25, 27)] (Some 20))
              (tick empty_world) 10030
              (requested LATEST_VIDEO_API_URL (tick empty_world))
              (mkEntry [(9, 20); (25, 27)] (Some 20))) as (rep & Hrun & Hiff).
  - reflexivity.
  - vm_compute; reflexivity.
  - intros k. unfold EXECUTION_LIMIT_MINUTES, on_time. simpl. lia.
  - exists rep. split; [exact Hrun|]. split; [|exact Hiff].
    vm_compute in Hrun. injection Hrun as <-. reflexivity.
Defined.
